(** * genji: index encoding, catalog and query parser

A shallow embedding of three parts of the genji database:
- [engine/bolt/index.go]: the secondary index stored in a bbolt bucket and
  its cursor;
- [database/config.go]: table configurations, their documents, and the
  table-info store of the catalog;
- the query parser exercised by [query/parser_test.go].

Byte slices are lists of [ascii] (one [ascii] is one byte), Go integers
are [Z], maps over byte keys are stdpp [gmap]s, and a Go function that
returns [(x, error)] returns a [result] here. *)

From Stdlib Require Import ZArith NArith Ascii String List Bool Lia SpecFloat.
From stdpp Require Import base option list gmap strings sorting.

Local Open Scope Z_scope.
Set Warnings "-register-all".
Set Default Proof Using "Type".

Abbreviation bytes := (list ascii).

(** A binary64 floating-point number. *)
Abbreviation float64 := spec_float.

(** ** Go-level helpers shared by the three parts *)

(** The errors the modelled code can return. *)
Inductive error : Type :=
  | ErrValueNil               (* errors.New("value cannot be nil") *)
  | ErrTransactionReadOnly    (* engine.ErrTransactionReadOnly *)
  | ErrTxNotWritable          (* bolt.ErrTxNotWritable *)
  | ErrKeyRequired            (* bolt.ErrKeyRequired *)
  | ErrKeyTooLarge            (* bolt.ErrKeyTooLarge *)
  | ErrValueTooLarge          (* bolt.ErrValueTooLarge *)
  | ErrKeyNotFound            (* engine.ErrKeyNotFound *)
  | ErrTableAlreadyExists
  | ErrTableNotFound
  | ErrFieldNotFound          (* document.ErrFieldNotFound *)
  | ErrTypeMismatch
  | ErrEncoding               (* a failure of the document codec *)
  | PanicIndexOutOfRange      (* a run-time panic, which no caller recovers *)
  | SyntaxError (line col : nat) (msg : string)
  | MixedParameters
  | NumberOverflow
  | OutOfFuel.                (* a recursion budget of the model is used up *)

Global Instance error_eq_dec : EqDecision error.
Proof. solve_decision. Defined.

(** A Go call returning [(x, error)]. *)
Inductive result (A : Type) : Type :=
  | Ok (a : A)
  | Err (e : error).
Arguments Ok {A} a.
Arguments Err {A} e.

(** A Go call that either returns or panics. *)
Inductive outcome (A : Type) : Type :=
  | Ret (a : A)
  | Panic.
Arguments Ret {A} a.
Arguments Panic {A}.

(** Unsigned byte order, the order of [bytes.Compare]. *)
Fixpoint bytes_leb (x y : bytes) : bool :=
  match x, y with
  | [], _ => true
  | _ :: _, [] => false
  | a :: x', b :: y' =>
      if (N_of_ascii a <? N_of_ascii b)%N then true
      else if (N_of_ascii a =? N_of_ascii b)%N then bytes_leb x' y'
      else false
  end.

Definition bytes_le (x y : bytes) : Prop := bytes_leb x y = true.
Definition bytes_lt (x y : bytes) : Prop := bytes_le x y ∧ x ≠ y.

Global Instance bytes_le_dec : RelDecision bytes_le.
Proof. intros x y. unfold bytes_le. apply _. Defined.

(** [bytes.LastIndexByte s c]: the loop [for i := len(s)-1; i >= 0; i--]. *)
Fixpoint LastIndexByte_from (i : nat) (s : bytes) (c : ascii) : Z :=
  match i with
  | O => -1
  | S j => if decide (s !! j = Some c) then Z.of_nat j
           else LastIndexByte_from j s c
  end.

Definition LastIndexByte (s : bytes) (c : ascii) : Z :=
  LastIndexByte_from (length s) s c.

(** The slice expression [s[:n]]; out of range it panics. *)
Definition slice_to (s : bytes) (n : Z) : outcome bytes :=
  if decide (0 <= n <= Z.of_nat (length s)) then Ret (take (Z.to_nat n) s)
  else Panic.

(** ** bbolt: the bucket and cursor the index is built on

    bbolt is a third-party library; this is its documented contract. A bucket
    is an ordered map from byte keys to byte values that belongs to a
    transaction; a cursor walks the keys in byte order. *)
Module bbolt.

Definition MaxKeySize : Z := 32768.
Definition MaxValueSize : Z := 2147483646.

Record Bucket : Type := mkBucket {
  kv : gmap bytes bytes;
  writable : bool
}.

Definition Put (b : Bucket) (key value : bytes) : Bucket * option error :=
  if negb (writable b) then (b, Some ErrTxNotWritable)
  else if decide (length key = 0%nat) then (b, Some ErrKeyRequired)
  else if decide (Z.of_nat (length key) > MaxKeySize) then (b, Some ErrKeyTooLarge)
  else if decide (Z.of_nat (length value) > MaxValueSize) then (b, Some ErrValueTooLarge)
  else (mkBucket (<[key := value]> (kv b)) (writable b), None).

(** The items of a bucket in key order. *)
Definition item_le (p q : bytes * bytes) : Prop := bytes_le p.1 q.1.

Global Instance item_le_dec : RelDecision item_le.
Proof. intros p q. unfold item_le. apply _. Defined.

Definition items (b : Bucket) : list (bytes * bytes) :=
  merge_sort item_le (map_to_list (kv b)).

(** A cursor: its bucket and its position. [None] is the cursor that is not
    positioned (its page stack is empty); [Some i] points at the [i]-th
    item, or nowhere when [i] is not an index of the bucket. *)
Record Cursor : Type := mkCursor {
  bucket : Bucket;
  stack : option nat
}.

Definition keyValue (c : Cursor) : option (bytes * bytes) :=
  match stack c with
  | None => None
  | Some i => items (bucket c) !! i
  end.

Definition First (c : Cursor) : option (bytes * bytes) * Cursor :=
  let c' := mkCursor (bucket c) (Some 0%nat) in (keyValue c', c').

Definition Last (c : Cursor) : option (bytes * bytes) * Cursor :=
  let c' := mkCursor (bucket c) (Some (length (items (bucket c)) - 1)%nat) in
  (keyValue c', c').

(** At the last item [Next] returns nil and leaves the cursor there. *)
Definition Next (c : Cursor) : option (bytes * bytes) * Cursor :=
  match stack c with
  | None => (None, c)
  | Some i =>
      if decide (S i < length (items (bucket c)))%nat
      then let c' := mkCursor (bucket c) (Some (S i)) in (keyValue c', c')
      else (None, c)
  end.

(** At the first item [Prev] returns nil and unwinds the page stack. *)
Definition Prev (c : Cursor) : option (bytes * bytes) * Cursor :=
  match stack c with
  | None => (None, c)
  | Some O => (None, mkCursor (bucket c) None)
  | Some (S i) => let c' := mkCursor (bucket c) (Some i) in (keyValue c', c')
  end.

(** [Seek] lands on the first key that is not below [seek]. *)
Fixpoint seek_index (seek : bytes) (l : list (bytes * bytes)) : nat :=
  match l with
  | [] => 0%nat
  | p :: l' => if decide (bytes_le seek p.1) then 0%nat else S (seek_index seek l')
  end.

Definition Seek (c : Cursor) (seek : bytes) : option (bytes * bytes) * Cursor :=
  let n := seek_index seek (items (bucket c)) in
  let c' := mkCursor (bucket c) (Some n) in (keyValue c', c').

End bbolt.

(** ** engine/bolt/index.go *)
Module bolt.

Definition sep : ascii := "_"%char.

Record Index : Type := mkIndex { ib : bbolt.Bucket }.

Definition NewIndex (b : bbolt.Bucket) : Index := mkIndex b.

(** [Index.Set]: the index after the call and the error returned. *)
Definition Index_Set (i : Index) (value rowid : bytes) : Index * option error :=
  if decide (length value = 0%nat) then (i, Some ErrValueNil)
  else
    let buf : bytes := [] in
    let buf := buf ++ value in
    let buf := buf ++ [sep] in
    let buf := buf ++ rowid in
    let '(b', err) := bbolt.Put (ib i) buf rowid in
    match err with
    | Some ErrTxNotWritable => (mkIndex b', Some ErrTransactionReadOnly)
    | _ => (mkIndex b', err)
    end.

Record Cursor : Type := mkCursor {
  b : bbolt.Bucket;
  c : bbolt.Cursor;
  val : bytes
}.

Definition Index_Cursor (i : Index) : Cursor :=
  mkCursor (ib i) (bbolt.mkCursor (ib i) None) [].

(** What every positioning method returns for a bolt item: the key up to
    its last separator, and the stored row id. *)
Definition decode (kv : bytes * bytes) : outcome (option (bytes * bytes)) :=
  let '(value, rowid) := kv in
  match slice_to value (LastIndexByte value sep) with
  | Ret v => Ret (Some (v, rowid))
  | Panic => Panic
  end.

Definition Cursor_First (cu : Cursor) : outcome (option (bytes * bytes)) * Cursor :=
  let '(r, c1) := bbolt.First (c cu) in
  match r with
  | None => (Ret None, mkCursor (b cu) c1 (val cu))
  | Some kv => (decode kv, mkCursor (b cu) c1 (val cu))
  end.

Definition Cursor_Last (cu : Cursor) : outcome (option (bytes * bytes)) * Cursor :=
  let '(r, c1) := bbolt.Last (c cu) in
  match r with
  | None => (Ret None, mkCursor (b cu) c1 (val cu))
  | Some kv => (decode kv, mkCursor (b cu) c1 (val cu))
  end.

Definition Cursor_Next (cu : Cursor) : outcome (option (bytes * bytes)) * Cursor :=
  let '(r, c1) := bbolt.Next (c cu) in
  match r with
  | None =>
      let '(_, c2) := bbolt.Last c1 in
      (Ret None, mkCursor (b cu) c2 (val cu))
  | Some kv => (decode kv, mkCursor (b cu) c1 (val cu))
  end.

Definition Cursor_Prev (cu : Cursor) : outcome (option (bytes * bytes)) * Cursor :=
  let '(r, c1) := bbolt.Prev (c cu) in
  match r with
  | None =>
      let '(_, c2) := bbolt.First c1 in
      (Ret None, mkCursor (b cu) c2 (val cu))
  | Some kv => (decode kv, mkCursor (b cu) c1 (val cu))
  end.

Definition Cursor_Seek (cu : Cursor) (seek : bytes) : outcome (option (bytes * bytes)) * Cursor :=
  let '(r, c1) := bbolt.Seek (c cu) seek in
  match r with
  | None => (Ret None, mkCursor (b cu) c1 (val cu))
  | Some kv => (decode kv, mkCursor (b cu) c1 (val cu))
  end.

End bolt.

(** ** The document package

    config.go imports the [document] package (values, field buffers, value
    buffers and the conversions of a value), which is not among the sources. *)
Module document.

(** Modelled from the spec: a value of the [document] package, the tagged
    union of section 3 of the specification. A document is an ordered
    sequence of named values, an array an ordered sequence of values. *)
Inductive Value : Type :=
  | NullValue
  | BoolValue (x : bool)
  | IntValue (x : Z)
  | Float64Value (x : float64)
  | TextValue (x : string)
  | BlobValue (x : bytes)
  | DocumentValue (d : list (string * Value))
  | ArrayValue (a : list Value).

Definition Document : Type := list (string * Value).
Definition Array : Type := list Value.
Definition ValuePath : Type := list string.

(** Modelled from the spec: the field buffer, a document built by adding
    fields in order, and the lookup of a field by its name. *)
Definition NewFieldBuffer : Document := [].
Definition Add (buf : Document) (field : string) (v : Value) : Document :=
  buf ++ [(field, v)].

Fixpoint GetByField (d : Document) (field : string) : result Value :=
  match d with
  | [] => Err ErrFieldNotFound
  | (name, v) :: d' => if decide (name = field) then Ok v else GetByField d' field
  end.

(** Modelled from the spec: the value buffer, an array built by appending
    values, and the constructors of values. *)
Definition NewValueBuffer : Array := [].
Definition Append (vb : Array) (v : Value) : Array := vb ++ [v].

Definition NewDocumentValue (d : Document) : Value := DocumentValue d.
Definition NewArrayValue (a : Array) : Value := ArrayValue a.
Definition NewIntValue (x : Z) : Value := IntValue x.
Definition NewBoolValue (x : bool) : Value := BoolValue x.
Definition NewTextValue (x : string) : Value := TextValue x.
Definition NewBlobValue (x : bytes) : Value := BlobValue x.

(** Modelled from the spec: the conversions of a value. The conversion of
    a value of another type fails. *)
Definition ConvertToArray (v : Value) : result Array :=
  match v with ArrayValue a => Ok a | _ => Err ErrTypeMismatch end.
Definition ConvertToDocument (v : Value) : result Document :=
  match v with DocumentValue d => Ok d | _ => Err ErrTypeMismatch end.
Definition ConvertToInt64 (v : Value) : result Z :=
  match v with IntValue x => Ok x | _ => Err ErrTypeMismatch end.
Definition ConvertToBool (v : Value) : result bool :=
  match v with BoolValue x => Ok x | _ => Err ErrTypeMismatch end.
Definition ConvertToText (v : Value) : result string :=
  match v with TextValue x => Ok x | _ => Err ErrTypeMismatch end.
Definition ConvertToBlob (v : Value) : result bytes :=
  match v with BlobValue x => Ok x | _ => Err ErrTypeMismatch end.

Definition ArrayLength (a : Array) : result nat := Ok (length a).

(** Modelled from the spec: [ar.Iterate(fn)] on an array. [fn] is called on
    each index and value in turn, on the state [st] its closure captures,
    until it returns an error. *)
Fixpoint Iterate_from {St : Type} (i : nat) (ar : Array)
    (fn : nat → Value → St → St * option error) (st : St) : St * option error :=
  match ar with
  | [] => (st, None)
  | v :: ar' =>
      match fn i v st with
      | (st', None) => Iterate_from (S i) ar' fn st'
      | (st', Some e) => (st', Some e)
      end
  end.

Definition Iterate {St : Type} (ar : Array)
    (fn : nat → Value → St → St * option error) (st : St) : St * option error :=
  Iterate_from 0 ar fn st.

(** The type tag of a value is a Go integer type whose declaration is not
    among the sources. It is taken as a parameter, with the two conversions
    config.go applies to it. *)
Class ValueTypeOps (ValueType : Type) : Type := {
  int_of_ValueType : ValueType → Z;       (* int(f.Type) *)
  ValueType_of_int64 : Z → ValueType      (* document.ValueType(tp) *)
}.

End document.

(** ** The engine store

    The catalog stores are built on the [engine.Store] interface and on the
    document codec of the [encoding] package; neither is among the sources. *)
Module engine.

(** Modelled from the spec: a store of the [engine.Store] interface (section
    6.1 of the specification) inside its transaction. Keys are byte
    sequences ordered lexicographically; the stored values are kept
    abstract; a store of a read-only transaction refuses writes. *)
Record Store (V : Type) : Type := mkStore {
  data : gmap bytes V;
  writable : bool
}.
Arguments mkStore {V} data writable.
Arguments data {V} s.
Arguments writable {V} s.

Section store.
Context {V : Type}.

(** Modelled from the spec: [Get], [Put] and [Delete] of a store. *)
Definition Get (st : Store V) (key : bytes) : result V :=
  match data st !! key with
  | Some v => Ok v
  | None => Err ErrKeyNotFound
  end.

Definition Put (st : Store V) (key : bytes) (v : V) : Store V * option error :=
  if writable st then (mkStore (<[key := v]> (data st)) (writable st), None)
  else (st, Some ErrTransactionReadOnly).

Definition Delete (st : Store V) (key : bytes) : Store V * option error :=
  if writable st then
    match data st !! key with
    | Some _ => (mkStore (delete key (data st)) (writable st), None)
    | None => (st, Some ErrKeyNotFound)
    end
  else (st, Some ErrTransactionReadOnly).

Record IteratorConfig : Type := mkIteratorConfig { Reverse : bool }.

Definition item_le (p q : bytes * V) : Prop := bytes_le p.1 q.1.

Global Instance item_le_dec : RelDecision item_le.
Proof. intros p q. unfold item_le. apply _. Defined.

(** Modelled from the spec: an iterator of a store, which yields the items
    in the order of their keys, or in the reverse order. It is the sequence
    of items it has still to yield. *)
Record Iterator : Type := mkIterator {
  source : list (bytes * V);
  pending : list (bytes * V)
}.

Definition NewIterator (st : Store V) (cfg : IteratorConfig) : Iterator :=
  let l := merge_sort item_le (map_to_list (data st)) in
  let l := if Reverse cfg then reverse l else l in
  mkIterator l l.

(** [Seek(nil)] rewinds the iterator to its first item. *)
Definition Seek_nil (it : Iterator) : Iterator :=
  mkIterator (source it) (source it).

Definition Valid (it : Iterator) : bool :=
  match pending it with [] => false | _ :: _ => true end.

Definition Next (it : Iterator) : Iterator :=
  mkIterator (source it) (tail (pending it)).

Definition Item (it : Iterator) : option (bytes * V) := head (pending it).

Definition Close (it : Iterator) : option error := None.
End store.

(** The codec of the [encoding] package, taken as a parameter:
    [EncodeDocument], and the view [EncodedDocument] of a stored value as a
    document. *)
Class Codec (V : Type) : Type := {
  EncodeDocument : document.Document → result V;
  EncodedDocument : V → document.Document
}.

End engine.

(** ** database/config.go *)
Module database.
Import document engine.

Section config.
Context {ValueType : Type} `{!ValueTypeOps ValueType}.
Context {V : Type} `{!Codec V}.

(** *** FieldConstraint and TableConfig *)

Record FieldConstraint : Type := mkFieldConstraint {
  Path : ValuePath;
  Type_ : ValueType;
  IsPrimaryKey : bool;
  IsNotNull : bool
}.

Record TableConfig : Type := mkTableConfig {
  FieldConstraints : list FieldConstraint
}.

(** The zero value of a [FieldConstraint], as [make] allocates it. *)
Definition zeroFieldConstraint : FieldConstraint :=
  mkFieldConstraint [] (ValueType_of_int64 0) false false.

Definition valuePathToArray (path : ValuePath) : Array :=
  fold_left (λ abuf p, Append abuf (NewTextValue p)) path NewValueBuffer.

Definition arrayToValuePath (v : Value) : ValuePath * option error :=
  match ConvertToArray v with
  | Err e => ([], Some e)
  | Ok ar =>
      Iterate ar (λ _ value (path : ValuePath),
        match ConvertToText value with
        | Err e => (path, Some e)
        | Ok p => (path ++ [p], None)
        end) []
  end.

Definition FieldConstraint_ToDocument (f : FieldConstraint) : Document :=
  let buf := NewFieldBuffer in
  let buf := Add buf "path" (NewArrayValue (valuePathToArray (Path f))) in
  let buf := Add buf "type" (NewIntValue (int_of_ValueType (Type_ f))) in
  let buf := Add buf "is_primary_key" (NewBoolValue (IsPrimaryKey f)) in
  let buf := Add buf "is_not_null" (NewBoolValue (IsNotNull f)) in
  buf.

(** [ScanDocument] writes the receiver field by field: the constraint
    after the call, and the error returned. *)
Definition FieldConstraint_ScanDocument (f : FieldConstraint) (d : Document)
    : FieldConstraint * option error :=
  match GetByField d "path" with
  | Err e => (f, Some e)
  | Ok v =>
  let '(path, err) := arrayToValuePath v in
  let f := mkFieldConstraint path (Type_ f) (IsPrimaryKey f) (IsNotNull f) in
  match err with
  | Some e => (f, Some e)
  | None =>
  match GetByField d "type" with
  | Err e => (f, Some e)
  | Ok v =>
  match ConvertToInt64 v with
  | Err e => (f, Some e)
  | Ok tp =>
  let f := mkFieldConstraint (Path f) (ValueType_of_int64 tp) (IsPrimaryKey f) (IsNotNull f) in
  match GetByField d "is_primary_key" with
  | Err e => (f, Some e)
  | Ok v =>
  match ConvertToBool v with
  | Err e => (mkFieldConstraint (Path f) (Type_ f) false (IsNotNull f), Some e)
  | Ok pk =>
  let f := mkFieldConstraint (Path f) (Type_ f) pk (IsNotNull f) in
  match GetByField d "is_not_null" with
  | Err e => (f, Some e)
  | Ok v =>
  match ConvertToBool v with
  | Err e => (mkFieldConstraint (Path f) (Type_ f) (IsPrimaryKey f) false, Some e)
  | Ok nn => (mkFieldConstraint (Path f) (Type_ f) (IsPrimaryKey f) nn, None)
  end end end end end end end end.

Definition TableConfig_ToDocument (t : TableConfig) : Document :=
  let buf := NewFieldBuffer in
  let vbuf := NewValueBuffer in
  let vbuf :=
    fold_left (λ vbuf fc, Append vbuf (NewDocumentValue (FieldConstraint_ToDocument fc)))
              (FieldConstraints t) vbuf in
  let buf := Add buf "field_constraints" (NewArrayValue vbuf) in
  buf.

Definition TableConfig_ScanDocument (t : TableConfig) (d : Document)
    : TableConfig * option error :=
  match GetByField d "field_constraints" with
  | Err e => (t, Some e)
  | Ok v =>
  match ConvertToArray v with
  | Err e => (t, Some e)
  | Ok ar =>
  match ArrayLength ar with
  | Err e => (t, Some e)
  | Ok l =>
  let t := mkTableConfig (replicate l zeroFieldConstraint) in
  Iterate ar (λ i value (t : TableConfig),
    match ConvertToDocument value with
    | Err e => (t, Some e)
    | Ok doc =>
        match FieldConstraints t !! i with
        | None => (t, Some PanicIndexOutOfRange)
        | Some f =>
            let '(f', err) := FieldConstraint_ScanDocument f doc in
            (mkTableConfig (<[i := f']> (FieldConstraints t)), err)
        end
    end) t
  end end end.

Definition GetPrimaryKey (t : TableConfig) : option FieldConstraint :=
  List.find IsPrimaryKey (FieldConstraints t).

(** *** tableInfo *)

Record tableInfo : Type := mktableInfo {
  storeID : bytes;          (* [6]byte *)
  cfg : TableConfig
}.

Definition zero_byte : ascii := ascii_of_N 0.

(** The zero value [var ti tableInfo]; its [cfg] pointer is nil. *)
Definition zero_storeID : bytes := replicate 6 zero_byte.

(** The builtin [copy(dst, src)]: the first [min (len dst) (len src)]
    bytes of [dst] are overwritten. *)
Definition copy (dst src : bytes) : bytes :=
  take (length dst) (take (length dst) src ++ drop (length src) dst).

Definition tableInfo_ToDocument (ti : tableInfo) : Document :=
  let buf := NewFieldBuffer in
  let buf := Add buf "storeID" (NewBlobValue (storeID ti)) in
  let buf := Add buf "config" (NewDocumentValue (TableConfig_ToDocument (cfg ti))) in
  buf.

Definition tableInfo_ScanDocument (ti : tableInfo) (d : Document)
    : tableInfo * option error :=
  match GetByField d "storeID" with
  | Err e => (ti, Some e)
  | Ok v =>
  match ConvertToBlob v with
  | Err e => (ti, Some e)
  | Ok b =>
  let ti := mktableInfo (copy (storeID ti) b) (cfg ti) in
  match GetByField d "config" with
  | Err e => (ti, Some e)
  | Ok v =>
  match ConvertToDocument v with
  | Err e => (ti, Some e)
  | Ok doc =>
  let '(c, err) := TableConfig_ScanDocument (mkTableConfig []) doc in
  (mktableInfo (storeID ti) c, err)
  end end end end.

(** *** generateStoreID *)

(** [binary.BigEndian.PutUint32(id[:], uint32(x))] on a 6-byte array. *)
Definition uint32 (x : Z) : Z := x mod 2 ^ 32.
Definition byte_of_Z (x : Z) : ascii := ascii_of_N (Z.to_N (x mod 256)).

Definition PutUint32 (id : bytes) (v : Z) : bytes :=
  <[3%nat := byte_of_Z v]>
    (<[2%nat := byte_of_Z (Z.shiftr v 8)]>
      (<[1%nat := byte_of_Z (Z.shiftr v 16)]>
        (<[0%nat := byte_of_Z (Z.shiftr v 24)]> id))).

(** One run of [generateStoreID] reads the clock and two random bytes. *)
Record entropy : Type := mkEntropy {
  unix_now : Z;
  rand_bytes : ascii * ascii
}.

Definition generateStoreID (env : entropy) : bytes :=
  let id := zero_storeID in
  let id := PutUint32 id (uint32 (unix_now env)) in
  let id := <[4%nat := (rand_bytes env).1]> id in
  let id := <[5%nat := (rand_bytes env).2]> id in
  id.

(** *** tableInfoStore *)

Record tableInfoStore : Type := mktableInfoStore { st : Store V }.

Definition key_of (tableName : string) : bytes := list_ascii_of_string tableName.

(** The loop of [Insert] that draws store ids. Every turn reads the clock
    and the random source once; [envs] are the successive readings, and
    [None] says the loop has used them all and is still running. *)
Fixpoint Insert_loop (t : tableInfoStore) (envs : list entropy) : option (result bytes) :=
  match envs with
  | [] => None
  | env :: envs' =>
      let id := generateStoreID env in
      match Get (st t) id with
      | Ok _ => Insert_loop t envs'
      | Err ErrKeyNotFound => Some (Ok id)
      | Err e => Some (Err e)
      end
  end.

Definition Insert (t : tableInfoStore) (tableName : string) (cfg : TableConfig)
    (envs : list entropy) : option (tableInfoStore * result tableInfo) :=
  let key := key_of tableName in
  match Get (st t) key with
  | Ok _ => Some (t, Err ErrTableAlreadyExists)
  | Err ErrKeyNotFound =>
      match Insert_loop t envs with
      | None => None
      | Some (Err e) => Some (t, Err e)
      | Some (Ok id) =>
          let ti := mktableInfo id cfg in
          match EncodeDocument (tableInfo_ToDocument ti) with
          | Err e => Some (t, Err e)
          | Ok v =>
              match Put (st t) key v with
              | (s', Some e) => Some (mktableInfoStore s', Err e)
              | (s', None) => Some (mktableInfoStore s', Ok ti)
              end
          end
      end
  | Err e => Some (t, Err e)
  end.

Definition tableInfoStore_Get (t : tableInfoStore) (tableName : string) : result tableInfo :=
  let key := key_of tableName in
  match Get (st t) key with
  | Err ErrKeyNotFound => Err ErrTableNotFound
  | Err e => Err e
  | Ok v =>
      let ti := mktableInfo zero_storeID (mkTableConfig []) in
      match tableInfo_ScanDocument ti (EncodedDocument v) with
      | (_, Some e) => Err e
      | (ti, None) => Ok ti
      end
  end.

Definition Replace (t : tableInfoStore) (tableName : string) (cfg : TableConfig)
    : tableInfoStore * option error :=
  match tableInfoStore_Get t tableName with
  | Err e => (t, Some e)
  | Ok ti =>
      let ti := mktableInfo (storeID ti) cfg in
      match EncodeDocument (tableInfo_ToDocument ti) with
      | Err e => (t, Some e)
      | Ok v =>
          let '(s', err) := Put (st t) (key_of tableName) v in
          (mktableInfoStore s', err)
      end
  end.

Definition tableInfoStore_Delete (t : tableInfoStore) (tableName : string)
    : tableInfoStore * option error :=
  let key := key_of tableName in
  match Delete (st t) key with
  | (s', Some ErrKeyNotFound) => (mktableInfoStore s', Some ErrTableNotFound)
  | (s', err) => (mktableInfoStore s', err)
  end.

(** The loop [for it.Seek(nil); it.Valid(); it.Next()] of [ListTables]. It
    makes one turn for each item the iterator has left, which bounds it. *)
Fixpoint ListTables_loop (turns : nat) (it : Iterator (V := V)) (names : list string)
    : Iterator (V := V) * list string :=
  match turns with
  | O => (it, names)
  | S turns' =>
      if Valid it then
        match Item it with
        | Some item =>
            let k := item.1 in
            ListTables_loop turns' (Next it) (names ++ [string_of_list_ascii k])
        | None => (it, names)
        end
      else (it, names)
  end.

Definition ListTables (t : tableInfoStore) : list string * option error :=
  let it := NewIterator (st t) (mkIteratorConfig false) in
  let it := Seek_nil it in
  let '(it, names) := ListTables_loop (length (pending it)) it [] in
  (names, Close it).

End config.
End database.

(** ** Concrete instances

    An 8-bit type tag and the codec that stores a document as it is: the
    instances on which the catalog is run. *)
Module models.
Import document engine database.

Global Instance uint8_ValueType : ValueTypeOps ascii := {|
  int_of_ValueType t := Z.of_N (N_of_ascii t);
  ValueType_of_int64 tp := ascii_of_N (Z.to_N (tp mod 256))
|}.

Global Instance plain_Codec : Codec Document := {|
  EncodeDocument d := Ok d;
  EncodedDocument v := v
|}.

Definition store0 : tableInfoStore (V := Document) :=
  mktableInfoStore (mkStore ∅ true).

(** A configuration with one primary key [id] and a nested field. *)
Definition cfg0 : TableConfig (ValueType := ascii) :=
  mkTableConfig
    [ mkFieldConstraint ["id"%string] (ascii_of_N 3) true true;
      mkFieldConstraint ["address"%string; "city"%string] (ascii_of_N 5) false false ].

Definition env0 : entropy := mkEntropy 1600000000 ("*"%char, "7"%char).
Definition env1 : entropy := mkEntropy 1600000001 ("a"%char, "b"%char).

End models.

(** ** The query parser

    Of the [query] package only parser_test.go is among the sources. The
    lexer and the recursive-descent parser follow sections 4.3 to 4.5 of the
    specification; expressions and statements are named as parser_test.go
    names them. *)
Module query.

(** *** Tokens *)

(** Modelled from the spec: the keywords of the lexer, section 4.3. *)
Inductive keyword : Type :=
  | K_SELECT | K_FROM | K_WHERE | K_INSERT | K_INTO | K_VALUES | K_RECORDS
  | K_UPDATE | K_SET | K_DELETE | K_CREATE | K_TABLE | K_IF | K_NOT | K_EXISTS
  | K_AND | K_OR | K_TRUE | K_FALSE | K_NULL.

Global Instance keyword_eq_dec : EqDecision keyword.
Proof. solve_decision. Defined.

Definition keywords : list (string * keyword) :=
  [ ("SELECT", K_SELECT); ("FROM", K_FROM); ("WHERE", K_WHERE);
    ("INSERT", K_INSERT); ("INTO", K_INTO); ("VALUES", K_VALUES);
    ("RECORDS", K_RECORDS); ("UPDATE", K_UPDATE); ("SET", K_SET);
    ("DELETE", K_DELETE); ("CREATE", K_CREATE); ("TABLE", K_TABLE);
    ("IF", K_IF); ("NOT", K_NOT); ("EXISTS", K_EXISTS); ("AND", K_AND);
    ("OR", K_OR); ("TRUE", K_TRUE); ("FALSE", K_FALSE); ("NULL", K_NULL) ]%string.

(** Modelled from the spec: the tokens of the lexer, section 4.3. *)
Inductive token : Type :=
  | IDENT (name : string)
  | KEYWORD (k : keyword)
  | INTEGER (x : Z)
  | FLOAT (x : float64)
  | STRING (s : string)
  | LPAREN | RPAREN | COMMA | SEMICOLON | COLON
  | EQ | NEQ | LT | LTE | GT | GTE
  | MUL | DOT
  | POSITIONALPARAM
  | NAMEDPARAM (name : string)
  | BADNUMBER             (* an integer literal outside int64 *)
  | BADSTRING             (* a string literal that is not closed *)
  | ILLEGAL (c : ascii)
  | EOF.

(** A token and the line and column of its first character. *)
Record item : Type := mkItem { tok : token; line : nat; col : nat }.

(** *** Lexer *)

Definition code (c : ascii) : N := N_of_ascii c.

Definition isDigit (c : ascii) : bool := ((48 <=? code c) && (code c <=? 57))%N.
Definition isUpper (c : ascii) : bool := ((65 <=? code c) && (code c <=? 90))%N.
Definition isLower (c : ascii) : bool := ((97 <=? code c) && (code c <=? 122))%N.
Definition isIdentFirst (c : ascii) : bool := isUpper c || isLower c || (code c =? 95)%N.
Definition isIdentChar (c : ascii) : bool := isIdentFirst c || isDigit c.
Definition isNewline (c : ascii) : bool := (code c =? 10)%N.
Definition isWhitespace (c : ascii) : bool :=
  ((code c =? 32) || (code c =? 9) || (code c =? 10) || (code c =? 13))%N.

Definition toUpper (c : ascii) : ascii :=
  if isLower c then ascii_of_N (code c - 32) else c.

Fixpoint span (p : ascii → bool) (s : bytes) : bytes * bytes :=
  match s with
  | [] => ([], [])
  | c :: s' => if p c then let '(w, rest) := span p s' in (c :: w, rest)
               else ([], s)
  end.

(** The position after the characters [w]. *)
Fixpoint advance (w : bytes) (line col : nat) : nat * nat :=
  match w with
  | [] => (line, col)
  | c :: w' => if isNewline c then advance w' (S line) 1%nat
               else advance w' line (S col)
  end.

Definition lookup_keyword (w : bytes) : option keyword :=
  let up := string_of_list_ascii (map toUpper w) in
  snd <$> List.find (λ kw, String.eqb kw.1 up) keywords.

Definition word_token (w : bytes) : token :=
  match lookup_keyword w with
  | Some k => KEYWORD k
  | None => IDENT (string_of_list_ascii w)
  end.

(** The value of a run of decimal digits. *)
Definition digits_value (ds : bytes) : Z :=
  fold_left (λ acc d, 10 * acc + Z.of_N (code d - 48)) ds 0.

Definition minInt64 : Z := - 2 ^ 63.
Definition maxInt64 : Z := 2 ^ 63 - 1.

Definition integer_token (neg : bool) (ds : bytes) : token :=
  let x := if neg then - digits_value ds else digits_value ds in
  if decide (minInt64 <= x <= maxInt64) then INTEGER x else BADNUMBER.

(** The binary64 number nearest to [m * 10 ^ e], ties to even. *)
Definition float64_of_decimal (neg : bool) (m e : Z) : float64 :=
  match m with
  | Zpos p =>
      if decide (0 <= e) then
        match m * 10 ^ e with
        | Zpos q => binary_round 53 1024 neg q 0
        | _ => S754_zero neg
        end
      else
        let d := 10 ^ (- e) in
        let k := 64 + Z.log2 d in
        let n := m * 2 ^ k in
        let q := n / d in
        let r := n mod d in
        let loc := if decide (r = 0) then loc_Exact else loc_Inexact (2 * r ?= d) in
        binary_round_aux 53 1024 neg q (- k) loc
  | _ => S754_zero neg
  end.

Definition float_token (neg : bool) (int_ds frac_ds : bytes) (exp : Z) : token :=
  FLOAT (float64_of_decimal neg (digits_value (int_ds ++ frac_ds))
                            (exp - Z.of_nat (length frac_ds))).

(** A number that starts at the digits [s]: the token and what follows it.
    A fraction needs a digit after the point, an exponent a digit after the
    [e] and its sign. *)
Definition scan_number (neg : bool) (s : bytes) : token * bytes :=
  let '(int_ds, rest) := span isDigit s in
  let '(frac, rest1) :=
    match rest with
    | "."%char :: d :: _ =>
        if isDigit d then let '(ds, r) := span isDigit (tail rest) in (Some ds, r)
        else (None, rest)
    | _ => (None, rest)
    end in
  let '(exp, rest2) :=
    match rest1 with
    | e :: r =>
        if (code e =? 101)%N || (code e =? 69)%N then
          match r with
          | sg :: d :: _ =>
              if ((code sg =? 45) || (code sg =? 43))%N && isDigit d then
                let '(ds, r') := span isDigit (tail r) in
                (Some (if (code sg =? 45)%N then - digits_value ds else digits_value ds), r')
              else if isDigit sg then
                let '(ds, r') := span isDigit r in (Some (digits_value ds), r')
              else (None, rest1)
          | [d] => if isDigit d then (Some (digits_value [d]), []) else (None, rest1)
          | [] => (None, rest1)
          end
        else (None, rest1)
    | [] => (None, rest1)
    end in
  match frac, exp with
  | None, None => (integer_token neg int_ds, rest2)
  | _, _ => (float_token neg int_ds (default [] frac) (default 0 exp), rest2)
  end.

(** The body of a string literal, after its opening quote: the text, and
    what follows the closing quote. Two quotes stand for one. *)
Fixpoint scan_string (s : bytes) (acc : bytes) : option (bytes * bytes) :=
  match s with
  | [] => None
  | c :: s' =>
      if (code c =? 39)%N then
        match s' with
        | c' :: s'' =>
            if (code c' =? 39)%N then scan_string s'' (acc ++ [c])
            else Some (acc, s')
        | [] => Some (acc, [])
        end
      else scan_string s' (acc ++ [c])
  end.

(** One token at the head of [s], which is neither white space nor a
    comment: the token and what follows it. *)
Definition scan_token (s : bytes) : token * bytes :=
  match s with
  | [] => (EOF, [])
  | c :: s' =>
      if isIdentFirst c then
        let '(w, rest) := span isIdentChar s in (word_token w, rest)
      else if isDigit c then scan_number false s
      else if (code c =? 39)%N then
        match scan_string s' [] with
        | Some (text, rest) => (STRING (string_of_list_ascii text), rest)
        | None => (BADSTRING, [])
        end
      else
        match c, s' with
        | "-"%char, d :: _ => if isDigit d then scan_number true s' else (ILLEGAL c, s')
        | "+"%char, d :: _ => if isDigit d then scan_number false s' else (ILLEGAL c, s')
        | "$"%char, d :: _ =>
            if isIdentFirst d then
              let '(w, rest) := span isIdentChar s' in
              (NAMEDPARAM (string_of_list_ascii w), rest)
            else (ILLEGAL c, s')
        | "!"%char, "="%char :: rest => (NEQ, rest)
        | "<"%char, "="%char :: rest => (LTE, rest)
        | ">"%char, "="%char :: rest => (GTE, rest)
        | "("%char, _ => (LPAREN, s')
        | ")"%char, _ => (RPAREN, s')
        | ","%char, _ => (COMMA, s')
        | ";"%char, _ => (SEMICOLON, s')
        | ":"%char, _ => (COLON, s')
        | "="%char, _ => (EQ, s')
        | "<"%char, _ => (LT, s')
        | ">"%char, _ => (GT, s')
        | "*"%char, _ => (MUL, s')
        | "."%char, _ => (DOT, s')
        | "?"%char, _ => (POSITIONALPARAM, s')
        | _, _ => (ILLEGAL c, s')
        end
  end.

(** Modelled from the spec: the scanner of section 4.3. White space and
    comments from [--] to the end of the line are dropped; the last token is
    [EOF]. Every turn uses up at least one character, so a budget of one
    more than the length of the text is never used up. *)
Fixpoint scan (budget : nat) (s : bytes) (line col : nat) : list item :=
  match budget with
  | O => []
  | S budget' =>
      match s with
      | [] => [mkItem EOF line col]
      | c :: s' =>
          if isWhitespace c then
            let '(line', col') := advance [c] line col in
            scan budget' s' line' col'
          else
            match c, s' with
            | "-"%char, "-"%char :: _ =>
                let '(w, rest) := span (λ x, negb (isNewline x)) s in
                let '(line', col') := advance w line col in
                scan budget' rest line' col'
            | _, _ =>
                let '(t, rest) := scan_token s in
                let w := take (length s - length rest) s in
                let '(line', col') := advance w line col in
                mkItem t line col :: scan budget' rest line' col'
            end
      end
  end.

(** Modelled from the spec: the tokens of a text, with their positions. *)
Definition tokenize (text : string) : list item :=
  let s := list_ascii_of_string text in
  scan (S (length s)) s 1 1.

(** *** Expressions and statements *)

(** Modelled from the spec: the expressions of section 3. *)
Inductive Expr : Type :=
  | Int64Value (x : Z)
  | Float64Value (x : float64)
  | StringValue (s : string)
  | BoolValue (b : bool)
  | NullValue
  | Field (name : string)
  | PositionalParam (n : nat)
  | NamedParam (name : string)
  | Eq (a b : Expr)
  | Neq (a b : Expr)
  | Lt (a b : Expr)
  | Lte (a b : Expr)
  | Gt (a b : Expr)
  | Gte (a b : Expr)
  | And (a b : Expr)
  | Or (a b : Expr).

(** A record of [INSERT ... RECORDS]: its pairs in the order written, or a
    parameter. *)
Inductive RecordSpec : Type :=
  | RecordPairs (pairs : list (string * Expr))
  | RecordParam (param : Expr).

(** Modelled from the spec: the statements of section 3. *)
Inductive Statement : Type :=
  | Select (fields : list Expr) (table : string) (where_ : option Expr)
  | Insert (table : string) (fields : list string)
           (rows : list (list Expr)) (records : list RecordSpec)
  | Update (table : string) (assignments : list (string * Expr)) (where_ : option Expr)
  | Delete (table : string) (where_ : option Expr)
  | CreateTable (name : string) (if_not_exists : bool).

(** *** The parser monad *)

(** The tokens still to read, and how many positional and named parameters
    the statement has shown so far. *)
Record state : Type := mkState {
  input : list item;
  positional : nat;
  named : nat
}.

Definition parser (A : Type) : Type := state → result (A * state).

Global Instance parser_ret : MRet parser := λ A a st, Ok (a, st).

Global Instance parser_bind : MBind parser := λ A B f p st,
  match p st with
  | Ok (a, st') => f a st'
  | Err e => Err e
  end.

Definition fail {A : Type} (e : error) : parser A := λ _, Err e.

Definition get_positional : parser nat := λ st, Ok (positional st, st).

(** A statement starts with no parameter seen. *)
Definition reset_params : parser unit := λ st, Ok ((), mkState (input st) 0 0).

(** The scanner fails on a token it could not form when that token is
    reached. *)
Definition scanned (it : item) : result item :=
  match tok it with
  | BADNUMBER => Err NumberOverflow
  | BADSTRING => Err (SyntaxError (line it) (col it) "unterminated string")
  | ILLEGAL _ => Err (SyntaxError (line it) (col it) "illegal character")
  | _ => Ok it
  end.

Definition current (st : state) : item :=
  match input st with
  | [] => mkItem EOF 0 0
  | it :: _ => it
  end.

(** The next token, left in place. *)
Definition peek : parser item := λ st,
  match scanned (current st) with
  | Ok it => Ok (it, st)
  | Err e => Err e
  end.

Definition unexpected {A : Type} (it : item) (msg : string) : parser A :=
  fail (SyntaxError (line it) (col it) msg).

Section grammar.

(** [strict] is the parameter mixing rule. The parser of the package has it
    on; with it off the same grammar is parsed and the two kinds of
    parameters are counted all the same. *)
Variable strict : bool.

(** Modelled from the spec: the parameter mixing rule of section 4.4, where
    a token is taken. Taking a parameter of one kind when the statement has
    shown one of the other kind fails. *)
Definition next : parser item := λ st,
  match scanned (current st) with
  | Err e => Err e
  | Ok it =>
      let rest := tail (input st) in
      match tok it with
      | POSITIONALPARAM =>
          if strict && (0 <? named st)%nat then Err MixedParameters
          else Ok (it, mkState rest (S (positional st)) (named st))
      | NAMEDPARAM _ =>
          if strict && (0 <? positional st)%nat then Err MixedParameters
          else Ok (it, mkState rest (positional st) (S (named st)))
      | _ => Ok (it, mkState rest (positional st) (named st))
      end
  end.

Definition expectKeyword (k : keyword) (msg : string) : parser unit :=
  it ← peek;
  match tok it with
  | KEYWORD k' => if decide (k' = k) then next ;; mret () else unexpected it msg
  | _ => unexpected it msg
  end.

Definition expectLParen : parser unit :=
  it ← peek;
  match tok it with LPAREN => next ;; mret () | _ => unexpected it "expected (" end.

Definition expectRParen : parser unit :=
  it ← peek;
  match tok it with RPAREN => next ;; mret () | _ => unexpected it "expected )" end.

Definition expectColon : parser unit :=
  it ← peek;
  match tok it with COLON => next ;; mret () | _ => unexpected it "expected :" end.

Definition expectEq : parser unit :=
  it ← peek;
  match tok it with EQ => next ;; mret () | _ => unexpected it "expected =" end.

Definition parseIdent (msg : string) : parser string :=
  it ← peek;
  match tok it with
  | IDENT name => next ;; mret name
  | _ => unexpected it msg
  end.

(** [p (',' p)*], the results in the order read. *)
Fixpoint sepByRest {A : Type} (p : parser A) (n : nat) (acc : list A) : parser (list A) :=
  match n with
  | O => fail OutOfFuel
  | S n' =>
      it ← peek;
      match tok it with
      | COMMA => next ;; x ← p; sepByRest p n' (acc ++ [x])
      | _ => mret acc
      end
  end.

Definition sepBy1 {A : Type} (p : parser A) (n : nat) : parser (list A) :=
  x ← p; sepByRest p n [x].

(** [field := IDENT ('.' IDENT)*], as the dotted name. *)
Fixpoint parseFieldRest (n : nat) (acc : string) : parser string :=
  match n with
  | O => fail OutOfFuel
  | S n' =>
      it ← peek;
      match tok it with
      | DOT => next ;; name ← parseIdent "expected field name";
               parseFieldRest n' (acc +:+ "." +:+ name)
      | _ => mret acc
      end
  end.

Definition parseField (n : nat) : parser string :=
  name ← parseIdent "expected field name"; parseFieldRest n name.

(** [primary := literal | field | param | '(' expr ')']. *)
Definition parsePrimary (expr : parser Expr) (n : nat) : parser Expr :=
  it ← peek;
  match tok it with
  | INTEGER x => next ;; mret (Int64Value x)
  | FLOAT x => next ;; mret (Float64Value x)
  | STRING s => next ;; mret (StringValue s)
  | KEYWORD K_TRUE => next ;; mret (BoolValue true)
  | KEYWORD K_FALSE => next ;; mret (BoolValue false)
  | KEYWORD K_NULL => next ;; mret NullValue
  | IDENT _ => name ← parseField n; mret (Field name)
  | POSITIONALPARAM => next ;; i ← get_positional; mret (PositionalParam i)
  | NAMEDPARAM name => next ;; mret (NamedParam name)
  | LPAREN => next ;; e ← expr; expectRParen ;; mret e
  | _ => unexpected it "expected expression"
  end.

(** [cmp_expr := primary ( (= | != | < | <= | > | >=) primary )?]. *)
Definition parseCmp (primary : parser Expr) : parser Expr :=
  a ← primary;
  it ← peek;
  match tok it with
  | EQ => next ;; b ← primary; mret (Eq a b)
  | NEQ => next ;; b ← primary; mret (Neq a b)
  | LT => next ;; b ← primary; mret (Lt a b)
  | LTE => next ;; b ← primary; mret (Lte a b)
  | GT => next ;; b ← primary; mret (Gt a b)
  | GTE => next ;; b ← primary; mret (Gte a b)
  | _ => mret a
  end.

(** [and_expr := cmp_expr ( AND cmp_expr )*], to the left. *)
Fixpoint parseAndRest (cmp : parser Expr) (n : nat) (a : Expr) : parser Expr :=
  match n with
  | O => fail OutOfFuel
  | S n' =>
      it ← peek;
      match tok it with
      | KEYWORD K_AND => next ;; b ← cmp; parseAndRest cmp n' (And a b)
      | _ => mret a
      end
  end.

Definition parseAnd (cmp : parser Expr) (n : nat) : parser Expr :=
  a ← cmp; parseAndRest cmp n a.

(** [or_expr := and_expr ( OR and_expr )*], to the left. *)
Fixpoint parseOrRest (and_ : parser Expr) (n : nat) (a : Expr) : parser Expr :=
  match n with
  | O => fail OutOfFuel
  | S n' =>
      it ← peek;
      match tok it with
      | KEYWORD K_OR => next ;; b ← and_; parseOrRest and_ n' (Or a b)
      | _ => mret a
      end
  end.

Definition parseOr (and_ : parser Expr) (n : nat) : parser Expr :=
  a ← and_; parseOrRest and_ n a.

(** Modelled from the spec: [expr := or_expr], the expression grammar of
    section 4.4. The budget [n] bounds the depth of parentheses and
    the length of every chain; the number of tokens is enough. *)
Fixpoint parseExpr (n : nat) : parser Expr :=
  match n with
  | O => fail OutOfFuel
  | S n' => parseOr (parseAnd (parseCmp (parsePrimary (parseExpr n') n')) n') n'
  end.

Definition parseWhere (n : nat) : parser (option Expr) :=
  it ← peek;
  match tok it with
  | KEYWORD K_WHERE => next ;; e ← parseExpr n; mret (Some e)
  | _ => mret None
  end.

(** [SELECT ( '*' | field (',' field)* ) FROM table [WHERE expr]]. *)
Definition parseSelect (n : nat) : parser Statement :=
  it ← peek;
  fields ← match tok it with
           | MUL => next ;; mret []
           | _ => sepBy1 (name ← parseField n; mret (Field name)) n
           end;
  expectKeyword K_FROM "expected FROM" ;;
  table ← parseIdent "expected table name";
  w ← parseWhere n;
  mret (Select fields table w).

(** [DELETE FROM table [WHERE expr]]. *)
Definition parseDelete (n : nat) : parser Statement :=
  expectKeyword K_FROM "expected FROM" ;;
  table ← parseIdent "expected table name";
  w ← parseWhere n;
  mret (Delete table w).

(** [UPDATE table SET field '=' expr (',' field '=' expr)* [WHERE expr]]. *)
Definition parseAssignment (n : nat) : parser (string * Expr) :=
  name ← parseField n;
  expectEq ;;
  e ← parseExpr n;
  mret (name, e).

Definition parseUpdate (n : nat) : parser Statement :=
  table ← parseIdent "expected table name";
  expectKeyword K_SET "expected SET" ;;
  assignments ← sepBy1 (parseAssignment n) n;
  w ← parseWhere n;
  mret (Update table assignments w).

(** [value_list := '(' expr (',' expr)* ')']. *)
Definition parseValueList (n : nat) : parser (list Expr) :=
  expectLParen ;;
  es ← sepBy1 (parseExpr n) n;
  expectRParen ;;
  mret es.

(** [pair := IDENT ':' expr]. *)
Definition parsePair (n : nat) : parser (string * Expr) :=
  name ← parseIdent "expected field name";
  expectColon ;;
  e ← parseExpr n;
  mret (name, e).

(** [record_spec := '(' pair (',' pair)* ')' | param]. *)
Definition parseRecordSpec (n : nat) : parser RecordSpec :=
  it ← peek;
  match tok it with
  | LPAREN => next ;; pairs ← sepBy1 (parsePair n) n; expectRParen ;;
              mret (RecordPairs pairs)
  | POSITIONALPARAM => next ;; i ← get_positional;
                       mret (RecordParam (PositionalParam i))
  | NAMEDPARAM name => next ;; mret (RecordParam (NamedParam name))
  | _ => unexpected it "expected record"
  end.

(** [INSERT INTO table ( insert_values | insert_records )]. *)
Definition parseInsert (n : nat) : parser Statement :=
  expectKeyword K_INTO "expected INTO" ;;
  table ← parseIdent "expected table name";
  it ← peek;
  match tok it with
  | KEYWORD K_RECORDS =>
      next ;; records ← sepBy1 (parseRecordSpec n) n;
      mret (Insert table [] [] records)
  | _ =>
      fields ← match tok it with
               | LPAREN => next ;; fs ← sepBy1 (parseField n) n; expectRParen ;; mret fs
               | _ => mret []
               end;
      expectKeyword K_VALUES "expected VALUES" ;;
      rows ← sepBy1 (parseValueList n) n;
      mret (Insert table fields rows [])
  end.

(** [CREATE TABLE IDENT [IF NOT EXISTS]]. *)
Definition parseCreate : parser Statement :=
  expectKeyword K_TABLE "expected TABLE" ;;
  name ← parseIdent "expected table name";
  it ← peek;
  match tok it with
  | KEYWORD K_IF =>
      next ;; expectKeyword K_NOT "expected NOT" ;;
      expectKeyword K_EXISTS "expected EXISTS" ;;
      mret (CreateTable name true)
  | _ => mret (CreateTable name false)
  end.

(** The statement after its leading keyword. *)
Definition parseStatementBody (n : nat) : parser Statement :=
  it ← peek;
  match tok it with
  | KEYWORD K_SELECT => next ;; parseSelect n
  | KEYWORD K_INSERT => next ;; parseInsert n
  | KEYWORD K_UPDATE => next ;; parseUpdate n
  | KEYWORD K_DELETE => next ;; parseDelete n
  | KEYWORD K_CREATE => next ;; parseCreate
  | _ => unexpected it "expected SELECT, INSERT, UPDATE, DELETE or CREATE"
  end.

(** Modelled from the spec: a statement, dispatched on its leading keyword;
    the count of its parameters starts afresh. *)
Definition parseStatement (n : nat) : parser Statement :=
  reset_params ;; parseStatementBody n.

(** Modelled from the spec: the loop of [ParseQuery], section 4.4.
    Statements are separated and optionally ended by [;]. [semi] says that a
    statement may start here: at the start, and after a [;]. *)
Fixpoint parseQueryLoop (n : nat) (budget : nat) (semi : bool) (acc : list Statement)
    : parser (list Statement) :=
  match budget with
  | O => fail OutOfFuel
  | S budget' =>
      it ← peek;
      match tok it with
      | EOF => mret acc
      | SEMICOLON => next ;; parseQueryLoop n budget' true acc
      | _ =>
          if semi then
            s ← parseStatement n; parseQueryLoop n budget' false (acc ++ [s])
          else unexpected it "expected ;"
      end
  end.

End grammar.

Definition start (toks : list item) : state := mkState toks 0 0.

Definition run {A : Type} (p : parser A) (toks : list item) : result A :=
  match p (start toks) with
  | Ok (a, _) => Ok a
  | Err e => Err e
  end.

(** Modelled from the spec: the entry point [ParseQuery] of section 4.4. *)
Definition ParseQuery (text : string) : result (list Statement) :=
  let toks := tokenize text in
  run (parseQueryLoop true (length toks) (S (length toks)) true []) toks.

(** Modelled from the spec: the entry point [ParseExpr] of section 4.4. *)
Definition ParseExpr (text : string) : result Expr :=
  let toks := tokenize text in
  run (parseExpr true (length toks)) toks.

End query.

(** ** The record buffer of package engine

    The second source text of engine/bolt/index.go: a buffer of records and
    the cursor over it. A record is a value of the [record.Record]
    interface, kept abstract. *)
Module engine_buffer.

Section buffer.
Context {Record_ : Type}.

Definition RecordBuffer : Type := list Record_.

(** [rb.Add(r)]: the buffer after the call. *)
Definition Add (rb : RecordBuffer) (r : Record_) : RecordBuffer := rb ++ [r].

Record recordBufferCursor : Type := mkRecordBufferCursor {
  i : Z;
  buf : RecordBuffer
}.

Definition Cursor (rb : RecordBuffer) : recordBufferCursor :=
  mkRecordBufferCursor (-1) rb.

(** [c.Next()]: what it returns, and the cursor after the call. *)
Definition Next (c : recordBufferCursor) : bool * recordBufferCursor :=
  if decide (i c + 1 >= Z.of_nat (length (buf c))) then (false, c)
  else (true, mkRecordBufferCursor (i c + 1) (buf c)).

(** [c.Record()] is [c.buf[c.i]], which panics out of range. *)
Definition Record (c : recordBufferCursor) : outcome Record_ :=
  if decide (0 <= i c) then
    match buf c !! Z.to_nat (i c) with
    | Some r => Ret r
    | None => Panic
    end
  else Panic.

Definition Err_ (c : recordBufferCursor) : option error := None.

End buffer.
End engine_buffer.

(** ** database/config.go: index configurations and the index store *)
Module database_index.
Import document engine database.

(** The errors of the index store: its own two, which are declared outside
    the sources, and those it passes on from the store, the codec and the
    documents. *)
Inductive index_error : Type :=
  | ErrIndexAlreadyExists
  | ErrIndexNotFound
  | Passed (e : error).

Global Instance index_error_eq_dec : EqDecision index_error.
Proof. solve_decision. Defined.

Record IndexConfig : Type := mkIndexConfig {
  Unique : bool;
  IndexName : string;
  TableName : string;
  Path : ValuePath
}.

Definition IndexConfig_ToDocument (i : IndexConfig) : Document :=
  let buf := NewFieldBuffer in
  let buf := Add buf "unique" (NewBoolValue (Unique i)) in
  let buf := Add buf "indexname" (NewTextValue (IndexName i)) in
  let buf := Add buf "tablename" (NewTextValue (TableName i)) in
  let buf := Add buf "path" (NewArrayValue (valuePathToArray (Path i))) in
  buf.

(** [ScanDocument] writes the receiver field by field: the configuration
    after the call, and the error returned. A conversion that fails writes
    the zero value. *)
Definition IndexConfig_ScanDocument (i : IndexConfig) (d : Document)
    : IndexConfig * option error :=
  match GetByField d "unique" with
  | Err e => (i, Some e)
  | Ok v =>
  match ConvertToBool v with
  | Err e => (mkIndexConfig false (IndexName i) (TableName i) (Path i), Some e)
  | Ok u =>
  let i := mkIndexConfig u (IndexName i) (TableName i) (Path i) in
  match GetByField d "indexname" with
  | Err e => (i, Some e)
  | Ok v =>
  match ConvertToText v with
  | Err e => (mkIndexConfig (Unique i) "" (TableName i) (Path i), Some e)
  | Ok name =>
  let i := mkIndexConfig (Unique i) name (TableName i) (Path i) in
  match GetByField d "tablename" with
  | Err e => (i, Some e)
  | Ok v =>
  match ConvertToText v with
  | Err e => (mkIndexConfig (Unique i) (IndexName i) "" (Path i), Some e)
  | Ok table =>
  let i := mkIndexConfig (Unique i) (IndexName i) table (Path i) in
  match GetByField d "path" with
  | Err e => (i, Some e)
  | Ok v =>
  let '(path, err) := arrayToValuePath v in
  (mkIndexConfig (Unique i) (IndexName i) (TableName i) path, err)
  end end end end end end end.

Section store.
Context {V : Type} `{!Codec V}.

Record indexStore : Type := mkindexStore { ist : Store V }.

(** The zero value [var idxopts IndexConfig]. *)
Definition zeroIndexConfig : IndexConfig := mkIndexConfig false "" "" [].

Definition indexStore_Insert (t : indexStore) (cfg : IndexConfig)
    : indexStore * option index_error :=
  let key := key_of (IndexName cfg) in
  match Get (ist t) key with
  | Ok _ => (t, Some ErrIndexAlreadyExists)
  | Err ErrKeyNotFound =>
      match EncodeDocument (IndexConfig_ToDocument cfg) with
      | Err e => (t, Some (Passed e))
      | Ok v =>
          let '(s', err) := Put (ist t) key v in
          (mkindexStore s', Passed <$> err)
      end
  | Err e => (t, Some (Passed e))
  end.

Definition indexStore_Get (t : indexStore) (indexName : string)
    : IndexConfig + index_error :=
  let key := key_of indexName in
  match Get (ist t) key with
  | Err ErrKeyNotFound => inr ErrIndexNotFound
  | Err e => inr (Passed e)
  | Ok v =>
      match IndexConfig_ScanDocument zeroIndexConfig (EncodedDocument v) with
      | (_, Some e) => inr (Passed e)
      | (idxopts, None) => inl idxopts
      end
  end.

Definition indexStore_Delete (t : indexStore) (indexName : string)
    : indexStore * option index_error :=
  let key := key_of indexName in
  match Delete (ist t) key with
  | (s', Some ErrKeyNotFound) => (mkindexStore s', Some ErrIndexNotFound)
  | (s', err) => (mkindexStore s', Passed <$> err)
  end.

(** The loop of [ListAll], one turn for each item the iterator has left. A
    turn copies the value of the item ([ValueCopy], which returns it) and
    scans it into a fresh configuration; the first one that does not scan
    ends the loop with its error. *)
Fixpoint ListAll_loop (turns : nat) (it : Iterator (V := V)) (idxList : list IndexConfig)
    : list IndexConfig + error :=
  match turns with
  | O => inl idxList
  | S turns' =>
      if Valid it then
        match Item it with
        | Some item =>
            let opts := zeroIndexConfig in
            let buf := item.2 in
            match IndexConfig_ScanDocument opts (EncodedDocument buf) with
            | (_, Some e) => inr e
            | (opts, None) => ListAll_loop turns' (Next it) (idxList ++ [opts])
            end
        | None => inl idxList
        end
      else inl idxList
  end.

Definition ListAll (t : indexStore) : list IndexConfig + index_error :=
  let it := NewIterator (ist t) (mkIteratorConfig false) in
  let it := Seek_nil it in
  match ListAll_loop (length (pending it)) it [] with
  | inr e => inr (Passed e)
  | inl idxList =>
      match Close it with
      | Some e => inr (Passed e)
      | None => inl idxList
      end
  end.

End store.
End database_index.

(** * The terms of the properties

    Definitions that only the statements and proofs below use. *)

(** Items of a store in the strict order of their keys. *)
Definition item_lt {V : Type} (p q : bytes * V) : Prop := bytes_lt p.1 q.1.

(** ** The index and its cursor *)
Module bolt_terms.
Import bolt.

Definition B (s : string) : bytes := list_ascii_of_string s.

Definition empty_rw : Index := NewIndex (bbolt.mkBucket ∅ true).

(** What a bolt positioning call returns is nil or an item of the bucket. *)
Definition yields_item (bc : bbolt.Cursor) (r : option (bytes * bytes) * bbolt.Cursor) : Prop :=
  ∀ kv, r.1 = Some kv → kv ∈ bbolt.items (bbolt.bucket bc).

(** What the five positioning methods return on the cursor [cu]. *)
Definition positioned (cu : Cursor) (seek : bytes)
    : list (outcome (option (bytes * bytes))) :=
  [ (Cursor_First cu).1; (Cursor_Last cu).1; (Cursor_Next cu).1;
    (Cursor_Prev cu).1; (Cursor_Seek cu seek).1 ].

(** The cursor resting on the last entry, and on the first. *)
Definition on_last (cu : Cursor) : Cursor :=
  let bu := bbolt.bucket (c cu) in
  mkCursor (b cu) (bbolt.mkCursor bu (Some (length (bbolt.items bu) - 1)%nat)) (val cu).

Definition on_first (cu : Cursor) : Cursor :=
  mkCursor (b cu) (bbolt.mkCursor (bbolt.bucket (c cu)) (Some 0%nat)) (val cu).

Definition three : Index :=
  let i := empty_rw in
  let i := (Index_Set i (B "alice") (B "1")).1 in
  let i := (Index_Set i (B "alice") (B "2")).1 in
  let i := (Index_Set i (B "bob") (B "1")).1 in
  i.

(** A cursor moved to the last entry, and one moved to the first. *)
Definition at_last : Cursor := (Cursor_Last (Index_Cursor three)).2.
Definition at_first : Cursor := (Cursor_First (Index_Cursor three)).2.

End bolt_terms.

(** ** The catalog *)
Module database_terms.
Import document engine database.

(** Converting a type tag to [int] and back gives the tag: so it is for
    every Go integer type no wider than [int64]. *)
Class ValueTypeLaws (ValueType : Type) `{!ValueTypeOps ValueType} : Prop :=
  ValueType_of_int_of : ∀ t : ValueType, ValueType_of_int64 (int_of_ValueType t) = t.

(** A stored document reads back field by field as the one encoded. *)
Class CodecLaws (V : Type) `{!Codec V} : Prop :=
  EncodedDocument_fields : ∀ (d : Document) (v : V) (field : string),
    EncodeDocument d = Ok v →
    GetByField (EncodedDocument v) field = GetByField d field.

Section config.
Context {ValueType : Type} `{!ValueTypeOps ValueType}.

Abbreviation FieldConstraint := (@FieldConstraint ValueType).

(** The order of table names: the byte order of their keys. *)
Definition name_lt (a b : string) : Prop := bytes_lt (key_of a) (key_of b).

(** What scanning gives back: the constraint with its type tag taken
    through the two conversions. *)
Definition reread (f : FieldConstraint) : FieldConstraint :=
  mkFieldConstraint (Path f) (ValueType_of_int64 (int_of_ValueType (Type_ f)))
                    (IsPrimaryKey f) (IsNotNull f).

End config.

Import models.

(** The store after ["users"] is inserted, and the table info returned. *)
Definition store1 : tableInfoStore (V := Document) :=
  match Insert store0 "users" cfg0 [env0] with
  | Some (t1, _) => t1
  | None => store0
  end.

Definition users_info : option (tableInfo (ValueType := ascii)) :=
  match Insert store0 "users" cfg0 [env0] with
  | Some (_, Ok ti) => Some ti
  | _ => None
  end.

Definition cfg1 : TableConfig (ValueType := ascii) :=
  mkTableConfig [ mkFieldConstraint ["id"%string] (ascii_of_N 3) true true ].

End database_terms.

(** ** The query parser *)
Module query_terms.
Import query.

Definition f2_3 : float64 := S754_finite false 5179139571476070 (-51).

Definition is_Err {A : Type} (r : result A) : Prop :=
  match r with Err _ => True | Ok _ => False end.

Definition is_positional (it : item) : bool :=
  match tok it with POSITIONALPARAM => true | _ => false end.

Definition is_named (it : item) : bool :=
  match tok it with NAMEDPARAM _ => true | _ => false end.

Definition count_positional (l : list item) : nat := length (List.filter is_positional l).
Definition count_named (l : list item) : nat := length (List.filter is_named l).

(** A state in which the statement has shown parameters of both kinds. *)
Definition mixed (st : state) : Prop := (0 < positional st)%nat ∧ (0 < named st)%nat.

(** What holds of every parser of the grammar, as a function of the mixing
    rule: it takes a prefix of the input and counts the parameters in it;
    under the rule it does not reach a mixed state; and when it succeeds
    without the rule it gives, under the rule, the same result or
    [MixedParameters]. *)
Record Good {A : Type} (p : bool → parser A) : Prop := mkGood {
  good_track : ∀ strict st a st',
    p strict st = Ok (a, st') →
    ∃ taken, input st = taken ++ input st' ∧
             positional st' = (positional st + count_positional taken)%nat ∧
             named st' = (named st + count_named taken)%nat;
  good_sound : ∀ st a st',
    p true st = Ok (a, st') → ¬ mixed st → ¬ mixed st';
  good_sim : ∀ st a st',
    p false st = Ok (a, st') →
    p true st = Ok (a, st') ∨ p true st = Err MixedParameters
}.

(** The tokens [taken] show a parameter of each kind. *)
Definition shows_both (taken : list item) : Prop :=
  (∃ it, it ∈ taken ∧ tok it = POSITIONALPARAM) ∧
  (∃ it name, it ∈ taken ∧ tok it = NAMEDPARAM name).

(** The tokens of a statement and of the expression of the scenario, each
    without the end of input that follows them. *)
Definition mixed_update : list item :=
  removelast (tokenize "UPDATE t SET a = ? WHERE b = $x").

Definition mixed_expr : list item :=
  removelast (tokenize "age >= ? AND age > $foo OR age < ?").

Definition is_semicolon (it : item) : Prop := tok it = SEMICOLON.

(** What may follow a statement: a separator or the end of input. *)
Definition ends_statement (it : item) : Prop := tok it = SEMICOLON ∨ tok it = EOF.

(** The tokens [ts] are the statement [s]: whatever separator or end of
    input follows them, the statement parser reads [ts] and returns [s]. *)
Definition parses_as (n : nat) (ts : list item) (s : Statement) : Prop :=
  ∀ sep rest p q, ends_statement sep →
    ∃ p' q', parseStatement true n (mkState (ts ++ sep :: rest) p q)
             = Ok (s, mkState (sep :: rest) p' q').

(** A statement of a query with the separators written before it. *)
Record block : Type := mkBlock {
  separators : list item;
  statement_tokens : list item;
  statement : Statement
}.

Fixpoint flatten (blocks : list block) : list item :=
  match blocks with
  | [] => []
  | b :: bs => separators b ++ statement_tokens b ++ flatten bs
  end.

(** Every statement but the first has at least one separator before it. *)
Fixpoint separated (n : nat) (first : bool) (blocks : list block) : Prop :=
  match blocks with
  | [] => True
  | b :: bs =>
      Forall is_semicolon (separators b) ∧
      (first = true ∨ separators b ≠ []) ∧
      parses_as n (statement_tokens b) (statement b) ∧
      separated n false bs
  end.

(** A text of [k] semicolons. *)
Definition semicolons (k : nat) : string := string_of_list_ascii (replicate k ";"%char).

(** The scenario [SELECT * FROM foo;;;DELETE FROM foo;] in blocks. *)
Definition select_foo : block :=
  mkBlock []
    [mkItem (KEYWORD K_SELECT) 1 1; mkItem MUL 1 8; mkItem (KEYWORD K_FROM) 1 10;
     mkItem (IDENT "foo") 1 15]
    (Select [] "foo" None).

Definition delete_foo : block :=
  mkBlock
    [mkItem SEMICOLON 1 18; mkItem SEMICOLON 1 19; mkItem SEMICOLON 1 20]
    [mkItem (KEYWORD K_DELETE) 1 21; mkItem (KEYWORD K_FROM) 1 28;
     mkItem (IDENT "foo") 1 33]
    (Delete "foo" None).

End query_terms.

(** ** More on the index and its cursor *)
Module bolt_more_terms.
Import bolt.

(** The composite key [Set] writes for a value and a row id. *)
Definition composite (value rowid : bytes) : bytes := value ++ [sep] ++ rowid.

(** Every key of the index holds the separator. *)
Definition composite_keys (i : Index) : Prop :=
  ∀ k v, bbolt.kv (ib i) !! k = Some v → sep ∈ k.

(** [n] calls of [Next], and [n] calls of [Prev]: what they return. *)
Fixpoint walk_Next (n : nat) (cu : Cursor) : list (outcome (option (bytes * bytes))) :=
  match n with
  | O => []
  | S n' => let '(r, cu') := Cursor_Next cu in r :: walk_Next n' cu'
  end.

Fixpoint walk_Prev (n : nat) (cu : Cursor) : list (outcome (option (bytes * bytes))) :=
  match n with
  | O => []
  | S n' => let '(r, cu') := Cursor_Prev cu in r :: walk_Prev n' cu'
  end.

(** [First] and then [n] calls of [Next]; [Last] and then [n] of [Prev]. *)
Definition forward (n : nat) (cu : Cursor) : list (outcome (option (bytes * bytes))) :=
  let '(r, cu') := Cursor_First cu in r :: walk_Next n cu'.

Definition backward (n : nat) (cu : Cursor) : list (outcome (option (bytes * bytes))) :=
  let '(r, cu') := Cursor_Last cu in r :: walk_Prev n cu'.

(** The cursor of bucket [bu] resting on entry [k]. *)
Definition resting (cu : Cursor) (k : nat) : Cursor :=
  mkCursor (b cu) (bbolt.mkCursor (bbolt.bucket (c cu)) (Some k)) (val cu).

(** An index that cannot be written, with one entry. *)
Definition read_only : Index :=
  mkIndex (bbolt.mkBucket (<[composite (bolt_terms.B "alice") (bolt_terms.B "1")
                             := bolt_terms.B "1"]> ∅) false).

End bolt_more_terms.

(** ** The record buffer *)
Module engine_buffer_terms.
Import engine_buffer.

(** [n] calls of [Next]: what they return, and the cursor after them. *)
Fixpoint Nexts {Record_ : Type} (n : nat) (c : recordBufferCursor (Record_ := Record_))
    : list bool * recordBufferCursor (Record_ := Record_) :=
  match n with
  | O => ([], c)
  | S n' =>
      let '(ok, c') := Next c in
      let '(oks, c'') := Nexts n' c' in
      (ok :: oks, c'')
  end.

End engine_buffer_terms.

(** ** More on the catalog *)
Module database_more_terms.
Import document engine database database_index.

(** [binary.BigEndian.Uint32] on the first four bytes of [b]. *)
Definition byte_value (b : bytes) (i : nat) : Z :=
  match b !! i with
  | Some x => Z.of_N (N_of_ascii x)
  | None => 0
  end.

Definition BigEndian_Uint32 (b : bytes) : Z :=
  Z.lor (Z.lor (Z.lor (byte_value b 3) (Z.shiftl (byte_value b 2) 8))
               (Z.shiftl (byte_value b 1) 16))
        (Z.shiftl (byte_value b 0) 24).

(** Every entry of the index store is an encoded configuration under the
    name the configuration gives. *)
Definition well_stored {V : Type} `{!Codec V} (t : indexStore (V := V)) : Prop :=
  ∀ k v, data (ist t) !! k = Some v →
    ∃ cfg, EncodeDocument (IndexConfig_ToDocument cfg) = Ok v ∧ k = key_of (IndexName cfg).

(** The item is the encoding of the configuration, under its name. *)
Definition holds {V : Type} `{!Codec V} (item : bytes * V) (cfg : IndexConfig) : Prop :=
  EncodeDocument (IndexConfig_ToDocument cfg) = Ok item.2 ∧
  item.1 = key_of (IndexName cfg).

(** The order of index names: the byte order of their keys. *)
Definition index_name_lt (a b : string) : Prop := bytes_lt (key_of a) (key_of b).

Import models.

Definition idx_age : IndexConfig :=
  mkIndexConfig true "idx_users_age" "users" ["age"%string].

Definition idx_city : IndexConfig :=
  mkIndexConfig false "idx_users_city" "users" ["address"%string; "city"%string].

Definition index_store0 : indexStore (V := Document) := mkindexStore (mkStore ∅ true).

Definition index_store2 : indexStore (V := Document) :=
  (indexStore_Insert (indexStore_Insert index_store0 idx_city).1 idx_age).1.

End database_more_terms.

(** * Properties *)

(** ** The index and its cursor *)
Module bolt_facts.
Import bolt bolt_terms.

(** The backward scan returns the greatest matching index below [i]. *)
Lemma LastIndexByte_from_skip (s : bytes) (c : ascii) (i k : nat) :
  (∀ j x, (i <= j < i + k)%nat → s !! j = Some x → x ≠ c) →
  LastIndexByte_from (i + k) s c = LastIndexByte_from i s c.
Proof.
  induction k as [|k IH]; intros Hno.
  - by rewrite Nat.add_0_r.
  - replace (i + S k)%nat with (S (i + k)) by lia. simpl.
    destruct (decide (s !! (i + k)%nat = Some c)) as [Heq|_].
    + exfalso. eapply (Hno (i + k)%nat c); [lia | done | done].
    + apply IH. intros j x Hj. apply Hno. lia.
Qed.

Lemma LastIndexByte_composite (value rowid : bytes) (c : ascii) :
  c ∉ rowid →
  LastIndexByte (value ++ [c] ++ rowid) c = Z.of_nat (length value).
Proof.
  intros Hfree. unfold LastIndexByte.
  assert (length (value ++ [c] ++ rowid) = (S (length value) + length rowid)%nat) as ->.
  { rewrite !length_app. simpl. lia. }
  rewrite (LastIndexByte_from_skip _ _ (S (length value)) (length rowid)).
  - cbn [LastIndexByte_from]. rewrite decide_True; [done|].
    rewrite lookup_app_r by lia. by rewrite Nat.sub_diag.
  - intros j x Hj Hlook Hx. subst x. apply Hfree.
    rewrite lookup_app_r in Hlook by lia.
    destruct (j - length value)%nat as [|m] eqn:Hm; [lia|].
    simpl in Hlook. by eapply list_elem_of_lookup_2.
Qed.

Lemma decode_composite (value rowid : bytes) :
  sep ∉ rowid →
  decode (value ++ [sep] ++ rowid, rowid) = Ret (Some (value, rowid)).
Proof.
  intros Hfree. unfold decode, slice_to.
  rewrite LastIndexByte_composite by done.
  rewrite decide_True by (rewrite length_app; lia).
  rewrite Nat2Z.id. by rewrite take_app_length.
Qed.

Lemma Index_Set_written (i i' : Index) (value rowid : bytes) :
  Index_Set i value rowid = (i', None) →
  value ≠ [] ∧
  bbolt.kv (ib i') = <[value ++ [sep] ++ rowid := rowid]> (bbolt.kv (ib i)).
Proof.
  unfold Index_Set, bbolt.Put. intros H.
  destruct (decide (length value = 0%nat)); [done|].
  split; [by destruct value|].
  assert (Hk : (([] ++ value) ++ [sep]) ++ rowid = value ++ [sep] ++ rowid)
    by (simpl; by rewrite <- app_assoc).
  cbv zeta in H. rewrite Hk in H.
  repeat case_match; simplify_eq; done.
Qed.

(** A bolt cursor returns nil or an item of its bucket. *)
Lemma bbolt_keyValue_item (bc : bbolt.Cursor) (kv : bytes * bytes) :
  bbolt.keyValue bc = Some kv → kv ∈ bbolt.items (bbolt.bucket bc).
Proof.
  unfold bbolt.keyValue. destruct (bbolt.stack bc) as [n|]; [|done].
  apply list_elem_of_lookup_2.
Qed.

Lemma bbolt_calls_yield_items (bc : bbolt.Cursor) (seek : bytes) :
  yields_item bc (bbolt.First bc) ∧ yields_item bc (bbolt.Last bc) ∧
  yields_item bc (bbolt.Next bc) ∧ yields_item bc (bbolt.Prev bc) ∧
  yields_item bc (bbolt.Seek bc seek).
Proof.
  unfold yields_item, bbolt.First, bbolt.Last, bbolt.Next, bbolt.Prev, bbolt.Seek.
  split_and!; intros kv; repeat case_match; simpl; try done;
    intros Hkv; by apply bbolt_keyValue_item in Hkv.
Qed.

Lemma decode_of_call (cu : Cursor) (r : option (bytes * bytes) * bbolt.Cursor)
    (ret : outcome (option (bytes * bytes))) :
  yields_item (c cu) r →
  ret = match r.1 with None => Ret None | Some kv => decode kv end →
  ret = Ret None ∨ ∃ kv, kv ∈ bbolt.items (bbolt.bucket (c cu)) ∧ ret = decode kv.
Proof.
  intros Hr ->. destruct r as [[kv|] c1]; simpl in *; [|by left].
  right. exists kv. split; [by apply Hr | done].
Qed.

(** Every positioning method returns the end sentinel or the decoding of an
    item of the bucket. *)
Lemma positioned_decode (cu : Cursor) (seek : bytes) (r : outcome (option (bytes * bytes))) :
  r ∈ positioned cu seek →
  r = Ret None ∨ ∃ kv, kv ∈ bbolt.items (bbolt.bucket (c cu)) ∧ r = decode kv.
Proof.
  destruct (bbolt_calls_yield_items (c cu) seek) as (HF & HL & HN & HP & HS).
  unfold positioned. rewrite !elem_of_cons, elem_of_nil.
  intros [->|[->|[->|[->|[->|[]]]]]].
  - apply (decode_of_call cu _ _ HF). unfold Cursor_First.
    by destruct (bbolt.First (c cu)) as [[kv|] c1].
  - apply (decode_of_call cu _ _ HL). unfold Cursor_Last.
    by destruct (bbolt.Last (c cu)) as [[kv|] c1].
  - apply (decode_of_call cu _ _ HN). unfold Cursor_Next.
    destruct (bbolt.Next (c cu)) as [[kv|] c1]; [done|].
    by destruct (bbolt.Last c1).
  - apply (decode_of_call cu _ _ HP). unfold Cursor_Prev.
    destruct (bbolt.Prev (c cu)) as [[kv|] c1]; [done|].
    by destruct (bbolt.First c1).
  - apply (decode_of_call cu _ _ HS). unfold Cursor_Seek.
    by destruct (bbolt.Seek (c cu) seek) as [[kv|] c1].
Qed.

(** C1, as the code has it. When [Index.Set(value, rowid)] succeeds, the
    key it wrote to the bucket is [value ‖ 0x5F ‖ rowid] with [rowid] as the
    stored value; provided [rowid] holds no byte 0x5F, cutting that key at
    its last 0x5F gives back [value] and the row id; and that cut of an item
    of the bucket is what the cursor's First, Last, Next, Prev and Seek
    return when they do not return the end sentinel. *)
Theorem Index_Set_composite_key (i i' : Index) (value rowid : bytes) :
  Index_Set i value rowid = (i', None) →
  bbolt.kv (ib i') = <[value ++ [sep] ++ rowid := rowid]> (bbolt.kv (ib i)) ∧
  (sep ∉ rowid →
     decode (value ++ [sep] ++ rowid, rowid) = Ret (Some (value, rowid))) ∧
  (∀ seek r, r ∈ positioned (Index_Cursor i') seek →
     r = Ret None ∨ ∃ kv, kv ∈ bbolt.items (ib i') ∧ r = decode kv).
Proof.
  intros H. split_and!.
  - by apply Index_Set_written in H as [_ ?].
  - apply decode_composite.
  - intros seek r. apply positioned_decode.
Qed.

Lemma Index_Set_composite_key_witness :
  let i' := (Index_Set empty_rw (B "alice") (B "1")).1 in
  bbolt.kv (ib i') = <[B "alice_1" := B "1"]> ∅ ∧
  decode (B "alice_1", B "1") = Ret (Some (B "alice", B "1")).
Proof.
  pose proof (Index_Set_composite_key empty_rw
                (Index_Set empty_rw (B "alice") (B "1")).1 (B "alice") (B "1")
                eq_refl) as (Hkv & Hdec & _).
  split; [exact Hkv|].
  apply Hdec. vm_compute. intros H.
  by repeat (inversion H as [|? ? ? H']; clear H; rename H' into H).
Defined.

(** C1 as stated fails when the row id holds the separator: after
    [Set("a", "_")] the stored key is ["a__"], and the cursor returns the
    value ["a_"]. *)
Lemma Index_Set_split_counterexample :
  let r := Index_Set empty_rw (B "a") (B "_") in
  r.2 = None ∧
  bbolt.items (ib r.1) = [(B "a__", B "_")] ∧
  (Cursor_First (Index_Cursor r.1)).1 = Ret (Some (B "a_", B "_")) ∧
  B "a_" ≠ B "a".
Proof. vm_compute. repeat split; congruence. Qed.

Lemma decode_not_end (kv : bytes * bytes) : decode kv ≠ Ret None.
Proof. destruct kv as [k v]. unfold decode. by destruct (slice_to _ _). Qed.

Lemma bbolt_Next_bucket (bc : bbolt.Cursor) :
  bbolt.bucket (bbolt.Next bc).2 = bbolt.bucket bc.
Proof. unfold bbolt.Next. repeat case_match; done. Qed.

Lemma bbolt_Prev_bucket (bc : bbolt.Cursor) :
  bbolt.bucket (bbolt.Prev bc).2 = bbolt.bucket bc.
Proof. unfold bbolt.Prev. repeat case_match; done. Qed.

Lemma Cursor_Next_end (cu cu' : Cursor) :
  Cursor_Next cu = (Ret None, cu') → cu' = on_last cu.
Proof.
  unfold Cursor_Next, on_last.
  pose proof (bbolt_Next_bucket (c cu)) as Hb.
  destruct (bbolt.Next (c cu)) as [[kv|] c1]; simpl in *.
  - intros [= Hd _]. by apply decode_not_end in Hd.
  - intros [= <-]. by rewrite Hb.
Qed.

Lemma Cursor_Prev_end (cu cu' : Cursor) :
  Cursor_Prev cu = (Ret None, cu') → cu' = on_first cu.
Proof.
  unfold Cursor_Prev, on_first.
  pose proof (bbolt_Prev_bucket (c cu)) as Hb.
  destruct (bbolt.Prev (c cu)) as [[kv|] c1]; simpl in *.
  - intros [= Hd _]. by apply decode_not_end in Hd.
  - intros [= <-]. by rewrite Hb.
Qed.

Lemma Cursor_Next_on_last (cu : Cursor) :
  Cursor_Next (on_last cu) = (Ret None, on_last cu).
Proof.
  unfold Cursor_Next, on_last, bbolt.Next. simpl.
  rewrite decide_False by lia. done.
Qed.

Lemma Cursor_Prev_on_first (cu : Cursor) :
  Cursor_Prev (on_first cu) = (Ret None, on_first cu).
Proof. done. Qed.

(** C2. Once [Next] has returned the end sentinel, a further [Next]
    returns it again and leaves the cursor as it was, resting on the last
    entry of the bucket; and the same for [Prev], which leaves the cursor on
    the first entry. *)
Theorem Cursor_Next_Prev_exhausted (cu cu' : Cursor) :
  (Cursor_Next cu = (Ret None, cu') →
     Cursor_Next cu' = (Ret None, cu') ∧
     bbolt.stack (c cu') = Some (length (bbolt.items (bbolt.bucket (c cu))) - 1)%nat) ∧
  (Cursor_Prev cu = (Ret None, cu') →
     Cursor_Prev cu' = (Ret None, cu') ∧
     bbolt.stack (c cu') = Some 0%nat).
Proof.
  split; intros H.
  - apply Cursor_Next_end in H as ->. split; [apply Cursor_Next_on_last | done].
  - apply Cursor_Prev_end in H as ->. split; [apply Cursor_Prev_on_first | done].
Qed.

Lemma Cursor_Next_Prev_exhausted_witness :
  Cursor_Next (Cursor_Next at_last).2 = (Ret None, (Cursor_Next at_last).2) ∧
  Cursor_Prev (Cursor_Prev at_first).2 = (Ret None, (Cursor_Prev at_first).2).
Proof.
  split.
  - apply (Cursor_Next_Prev_exhausted at_last (Cursor_Next at_last).2).
    vm_compute. reflexivity.
  - apply (Cursor_Next_Prev_exhausted at_first (Cursor_Prev at_first).2).
    vm_compute. reflexivity.
Defined.

End bolt_facts.

(** ** The byte order *)

Lemma bytes_leb_refl (x : bytes) : bytes_leb x x = true.
Proof.
  induction x as [|a x IH]; [done|]. simpl.
  rewrite N.ltb_irrefl, N.eqb_refl. exact IH.
Qed.

Lemma bytes_leb_total (x y : bytes) : bytes_leb x y = true ∨ bytes_leb y x = true.
Proof.
  revert y. induction x as [|a x IH]; intros [|b y]; simpl; auto.
  destruct (N.ltb_spec (N_of_ascii a) (N_of_ascii b)); [auto|].
  destruct (N.ltb_spec (N_of_ascii b) (N_of_ascii a)); [auto|].
  assert (N_of_ascii a = N_of_ascii b) as Heq by lia.
  rewrite Heq, N.eqb_refl. apply IH.
Qed.

Lemma bytes_leb_trans (x y z : bytes) :
  bytes_leb x y = true → bytes_leb y z = true → bytes_leb x z = true.
Proof.
  revert y z. induction x as [|a x IH]; intros [|b y] [|d z]; simpl; try done.
  destruct (N.ltb_spec (N_of_ascii a) (N_of_ascii b)),
           (N.ltb_spec (N_of_ascii b) (N_of_ascii d)),
           (N.ltb_spec (N_of_ascii a) (N_of_ascii d)),
           (N.eqb_spec (N_of_ascii a) (N_of_ascii b)),
           (N.eqb_spec (N_of_ascii b) (N_of_ascii d)),
           (N.eqb_spec (N_of_ascii a) (N_of_ascii d));
    try done; try lia.
  apply IH.
Qed.

Lemma bytes_leb_antisym (x y : bytes) :
  bytes_leb x y = true → bytes_leb y x = true → x = y.
Proof.
  revert y. induction x as [|a x IH]; intros [|b y]; simpl; try done.
  destruct (N.ltb_spec (N_of_ascii a) (N_of_ascii b)),
           (N.ltb_spec (N_of_ascii b) (N_of_ascii a)),
           (N.eqb_spec (N_of_ascii a) (N_of_ascii b)),
           (N.eqb_spec (N_of_ascii b) (N_of_ascii a));
    try done; try lia.
  intros Hxy Hyx. f_equal; [|by apply IH].
  rewrite <- (ascii_N_embedding a), <- (ascii_N_embedding b). by f_equal.
Qed.

Global Instance bytes_le_po : PartialOrder bytes_le.
Proof.
  split; [split|].
  - intros x. apply bytes_leb_refl.
  - intros x y z. apply bytes_leb_trans.
  - intros x y. apply bytes_leb_antisym.
Qed.

Global Instance bytes_le_total : Total bytes_le.
Proof. intros x y. apply bytes_leb_total. Qed.

(** [bytes_lt] is the strict part of [bytes_le]. *)
Lemma bytes_lt_irrefl (x : bytes) : ¬ bytes_lt x x.
Proof. by intros [_ ?]. Qed.

Lemma bytes_lt_trans (x y z : bytes) : bytes_lt x y → bytes_lt y z → bytes_lt x z.
Proof.
  intros [Hxy Hne] [Hyz Hne']. split; [by etrans|].
  intros ->. apply Hne. by apply (anti_symm bytes_le).
Qed.

(** Sorting items by key gives strictly ascending keys when the keys are
    distinct. *)
Section sorted_items.
Context {V : Type}.

Global Instance engine_item_le_trans : Transitive (@engine.item_le V).
Proof. intros p q r. unfold engine.item_le. apply bytes_leb_trans. Qed.

Global Instance engine_item_le_total : Total (@engine.item_le V).
Proof. intros p q. unfold engine.item_le. apply bytes_leb_total. Qed.

Lemma StronglySorted_item_lt (l : list (bytes * V)) :
  StronglySorted engine.item_le l → NoDup l.*1 → StronglySorted item_lt l.
Proof.
  induction 1 as [|p l Hs IH Hall]; intros Hnd; [constructor|].
  simpl in Hnd. apply NoDup_cons in Hnd as [Hp Hnd].
  constructor; [by apply IH|].
  apply Forall_forall. intros q Hq. split.
  - rewrite Forall_forall in Hall. by apply Hall.
  - intros Heq. apply Hp. rewrite Heq. by apply list_elem_of_fmap_2.
Qed.

Lemma sorted_items_strict (m : gmap bytes V) :
  StronglySorted item_lt (merge_sort engine.item_le (map_to_list m)).
Proof.
  apply StronglySorted_item_lt.
  - apply (StronglySorted_merge_sort _).
  - rewrite merge_sort_Permutation. apply NoDup_fst_map_to_list.
Qed.

Lemma sorted_items_elem (m : gmap bytes V) (k : bytes) (v : V) :
  (k, v) ∈ merge_sort engine.item_le (map_to_list m) ↔ m !! k = Some v.
Proof. rewrite merge_sort_Permutation. apply elem_of_map_to_list. Qed.
End sorted_items.

(** ** The catalog *)
Module database_facts.
Import document engine database database_terms.

Global Instance uint8_ValueTypeLaws : ValueTypeLaws ascii.
Proof.
  intros t. unfold ValueType_of_int64, int_of_ValueType. simpl.
  pose proof (N_ascii_bounded t).
  rewrite Z.mod_small by lia. rewrite N2Z.id. apply ascii_N_embedding.
Qed.

Global Instance plain_CodecLaws : CodecLaws Document.
Proof. intros d v field [= ->]. done. Qed.

Lemma fold_left_Append {A : Type} (g : A → Value) (l : list A) (acc : Array) :
  fold_left (λ buf x, Append buf (g x)) l acc = acc ++ map g l.
Proof.
  revert acc. induction l as [|x l IH]; intros acc; simpl.
  - by rewrite app_nil_r.
  - rewrite IH. unfold Append. by rewrite <- app_assoc.
Qed.

Section config.
Context {ValueType : Type} `{!ValueTypeOps ValueType}.
Context {V : Type} `{!Codec V}.

Abbreviation FieldConstraint := (@FieldConstraint ValueType).
Abbreviation TableConfig := (@TableConfig ValueType).
Abbreviation tableInfo := (@tableInfo ValueType).
Abbreviation tableInfoStore := (@tableInfoStore V).

(** *** ListTables *)

(** The loop ends with the iterator used up and has appended the key of
    every item that was left. *)
Lemma ListTables_loop_map (it : Iterator (V := V)) (names : list string) :
  ListTables_loop (length (pending it)) it names
  = (mkIterator (source it) [],
     names ++ map (λ item, string_of_list_ascii item.1) (pending it)).
Proof.
  destruct it as [src pend]. simpl. revert names.
  induction pend as [|p l IH]; intros names; simpl.
  - by rewrite app_nil_r.
  - unfold Next. simpl. rewrite IH. by rewrite <- app_assoc.
Qed.

(** C8. [ListTables] returns no error and the names of exactly the tables
    in the store, each before every name that follows it in the
    lexicographic byte order. *)
Theorem ListTables_sorted (t : tableInfoStore) :
  (ListTables t).2 = None ∧
  StronglySorted name_lt (ListTables t).1 ∧
  ∀ name : string,
    name ∈ (ListTables t).1 ↔ is_Some (data (st t) !! key_of name).
Proof.
  unfold ListTables. rewrite ListTables_loop_map. simpl.
  split; [done|]. split.
  - pose proof (sorted_items_strict (data (st t))) as Hs.
    induction Hs as [|p l Hs IH Hall]; simpl; constructor; [done|].
    apply Forall_forall. intros name Hin.
    apply list_elem_of_fmap in Hin as (q & -> & Hq).
    rewrite Forall_forall in Hall. specialize (Hall q Hq).
    unfold name_lt, key_of. by rewrite !list_ascii_of_string_of_list_ascii.
  - intros name. rewrite list_elem_of_fmap. split.
    + intros ([k v] & -> & Hin). apply sorted_items_elem in Hin.
      unfold key_of. simpl. rewrite list_ascii_of_string_of_list_ascii. eauto.
    + intros [v Hv]. exists (key_of name, v). split.
      * unfold key_of. simpl. by rewrite string_of_list_ascii_of_string.
      * by apply sorted_items_elem.
Qed.

(** *** Documents of configurations *)

Lemma valuePathToArray_map (path : ValuePath) :
  valuePathToArray path = map TextValue path.
Proof. unfold valuePathToArray. by rewrite fold_left_Append. Qed.

Lemma Iterate_from_texts (i : nat) (path acc : ValuePath) :
  Iterate_from i (map TextValue path)
    (λ _ value (path : ValuePath),
       match ConvertToText value with
       | Err e => (path, Some e)
       | Ok p => (path ++ [p], None)
       end) acc
  = (acc ++ path, None).
Proof.
  revert i acc. induction path as [|p path IH]; intros i acc; simpl.
  - by rewrite app_nil_r.
  - rewrite IH. by rewrite <- app_assoc.
Qed.

Lemma arrayToValuePath_valuePathToArray (path : ValuePath) :
  arrayToValuePath (NewArrayValue (valuePathToArray path)) = (path, None).
Proof.
  unfold arrayToValuePath, Iterate. rewrite valuePathToArray_map. simpl.
  apply Iterate_from_texts.
Qed.

Lemma FieldConstraint_scan_to (f0 f : FieldConstraint) :
  FieldConstraint_ScanDocument f0 (FieldConstraint_ToDocument f) = (reread f, None).
Proof.
  unfold FieldConstraint_ScanDocument, FieldConstraint_ToDocument.
  cbn [NewFieldBuffer Add app GetByField].
  rewrite decide_True by done.
  rewrite arrayToValuePath_valuePathToArray.
  repeat (rewrite decide_False by done). rewrite decide_True by done.
  cbn [NewIntValue ConvertToInt64].
  repeat (rewrite decide_False by done). rewrite decide_True by done.
  cbn [NewBoolValue ConvertToBool].
  repeat (rewrite decide_False by done). rewrite decide_True by done.
  done.
Qed.

Lemma Iterate_from_constraints (seen rest : list FieldConstraint) (pad : list FieldConstraint) :
  length pad = length rest →
  Iterate_from (length seen)
    (map (λ fc, NewDocumentValue (FieldConstraint_ToDocument fc)) rest)
    (λ i value (t : TableConfig),
       match ConvertToDocument value with
       | Err e => (t, Some e)
       | Ok doc =>
           match FieldConstraints t !! i with
           | None => (t, Some PanicIndexOutOfRange)
           | Some f =>
               let '(f', err) := FieldConstraint_ScanDocument f doc in
               (mkTableConfig (<[i := f']> (FieldConstraints t)), err)
           end
       end)
    (mkTableConfig (seen ++ pad))
  = (mkTableConfig (seen ++ map reread rest), None).
Proof.
  revert seen pad. induction rest as [|f rest IH]; intros seen pad Hlen.
  - destruct pad; [done | simpl in Hlen; lia].
  - destruct pad as [|z pad]; [simpl in Hlen; lia|].
    cbn [map Iterate_from NewDocumentValue ConvertToDocument FieldConstraints].
    rewrite list_lookup_middle by done.
    rewrite FieldConstraint_scan_to.
    rewrite insert_app_r_alt by lia. rewrite Nat.sub_diag. cbn [insert list_insert].
    specialize (IH (seen ++ [reread f]) pad).
    rewrite length_app in IH. simpl in IH.
    replace (length seen + 1)%nat with (S (length seen)) in IH by lia.
    rewrite <- !app_assoc in IH. simpl in IH. apply IH.
    simpl in Hlen. lia.
Qed.

Lemma TableConfig_scan_to (t0 t : TableConfig) :
  TableConfig_ScanDocument t0 (TableConfig_ToDocument t)
  = (mkTableConfig (map reread (FieldConstraints t)), None).
Proof.
  unfold TableConfig_ScanDocument, TableConfig_ToDocument.
  cbn [NewFieldBuffer Add app GetByField].
  rewrite decide_True by done.
  rewrite fold_left_Append. cbn [NewValueBuffer app NewArrayValue ConvertToArray ArrayLength].
  unfold Iterate.
  apply (Iterate_from_constraints [] (FieldConstraints t)).
  by rewrite length_replicate, length_map.
Qed.

Lemma reread_id `{!ValueTypeLaws ValueType} (f : FieldConstraint) : reread f = f.
Proof. destruct f. unfold reread. simpl. by rewrite ValueType_of_int_of. Qed.

Lemma map_reread_id `{!ValueTypeLaws ValueType} (fcs : list FieldConstraint) :
  map reread fcs = fcs.
Proof. induction fcs as [|f fcs IH]; [done|]. simpl. by rewrite reread_id, IH. Qed.

Lemma TableConfig_roundtrip `{!ValueTypeLaws ValueType} (t0 t : TableConfig) :
  TableConfig_ScanDocument t0 (TableConfig_ToDocument t) = (t, None).
Proof.
  rewrite TableConfig_scan_to. destruct t as [fcs]. simpl.
  by rewrite map_reread_id.
Qed.

(** C9. Scanning the document of a table configuration into any
    configuration succeeds and gives the configuration back: the same
    number of constraints, each with its path, type, primary-key flag and
    not-null flag. *)
Theorem TableConfig_ScanDocument_ToDocument `{!ValueTypeLaws ValueType}
    (t0 t : TableConfig) :
  let '(t', err) := TableConfig_ScanDocument t0 (TableConfig_ToDocument t) in
  err = None ∧ t' = t ∧
  length (FieldConstraints t') = length (FieldConstraints t) ∧
  ∀ i f, FieldConstraints t !! i = Some f →
    ∃ f', FieldConstraints t' !! i = Some f' ∧
      Path f' = Path f ∧ Type_ f' = Type_ f ∧
      IsPrimaryKey f' = IsPrimaryKey f ∧ IsNotNull f' = IsNotNull f.
Proof.
  rewrite TableConfig_roundtrip. repeat split. eauto 10.
Qed.

(** *** Store ids *)

Lemma length_copy (dst src : bytes) : length (copy dst src) = length dst.
Proof. unfold copy. rewrite length_take, length_app, length_take, length_drop. lia. Qed.

Lemma copy_same_length (dst src : bytes) :
  length src = length dst → copy dst src = src.
Proof.
  intros Hlen. unfold copy. rewrite <- Hlen.
  rewrite drop_ge by lia. rewrite app_nil_r.
  rewrite (take_ge src) by lia. by rewrite take_ge by lia.
Qed.

Lemma length_generateStoreID (env : entropy) : length (generateStoreID env) = 6%nat.
Proof. unfold generateStoreID, PutUint32. by rewrite !length_insert. Qed.

(** *** Reading back what was stored *)

Lemma tableInfo_scan_to `{!CodecLaws V} (ti0 ti : tableInfo) (v : V) :
  EncodeDocument (tableInfo_ToDocument ti) = Ok v →
  tableInfo_ScanDocument ti0 (EncodedDocument v)
  = (mktableInfo (copy (storeID ti0) (storeID ti))
                 (mkTableConfig (map reread (FieldConstraints (cfg ti)))), None).
Proof.
  intros Henc. unfold tableInfo_ScanDocument.
  rewrite !(EncodedDocument_fields _ _ _ Henc).
  unfold tableInfo_ToDocument.
  cbn [NewFieldBuffer Add app GetByField].
  rewrite decide_True by done.
  rewrite decide_False by done. rewrite decide_True by done.
  cbn [NewBlobValue ConvertToBlob NewDocumentValue ConvertToDocument storeID cfg].
  by rewrite TableConfig_scan_to.
Qed.

Lemma Get_stored `{!CodecLaws V} (t : tableInfoStore) (name : string)
    (ti : tableInfo) (v : V) :
  data (st t) !! key_of name = Some v →
  EncodeDocument (tableInfo_ToDocument ti) = Ok v →
  length (storeID ti) = 6%nat →
  tableInfoStore_Get t name
  = Ok (mktableInfo (storeID ti)
                    (mkTableConfig (map reread (FieldConstraints (cfg ti))))).
Proof.
  intros Hv Henc Hlen. unfold tableInfoStore_Get, Get. rewrite Hv.
  rewrite (tableInfo_scan_to _ ti v Henc). cbn [storeID].
  by rewrite copy_same_length.
Qed.

(** Every table info [Get] returns has a 6-byte store id. *)
Lemma Get_length_storeID (t : tableInfoStore) (name : string) (ti : tableInfo) :
  tableInfoStore_Get t name = Ok ti → length (storeID ti) = 6%nat.
Proof.
  unfold tableInfoStore_Get, tableInfo_ScanDocument.
  intros H. repeat case_match; simplify_eq; cbn [storeID]; by rewrite length_copy.
Qed.

Lemma Insert_loop_inv (t : tableInfoStore) (envs : list entropy) (r : result bytes) :
  Insert_loop t envs = Some r →
  ∃ env, env ∈ envs ∧ r = Ok (generateStoreID env)
         ∧ data (st t) !! generateStoreID env = None.
Proof.
  induction envs as [|env envs IH]; [done|]. simpl. unfold Get.
  destruct (data (st t) !! generateStoreID env) eqn:Hid.
  - intros H. destruct (IH H) as (env' & ? & ? & ?).
    exists env'. split; [by right | done].
  - intros [= <-]. exists env. split; [by left | done].
Qed.

Lemma Insert_inv (t t1 : tableInfoStore) (name : string) (c : TableConfig)
    (envs : list entropy) (ti : tableInfo) :
  Insert t name c envs = Some (t1, Ok ti) →
  data (st t) !! key_of name = None ∧
  cfg ti = c ∧
  (∃ env, env ∈ envs ∧ storeID ti = generateStoreID env
          ∧ data (st t) !! generateStoreID env = None) ∧
  ∃ v, EncodeDocument (tableInfo_ToDocument ti) = Ok v ∧
       st t1 = mkStore (<[key_of name := v]> (data (st t))) (writable (st t)).
Proof.
  unfold Insert, Get, Put. intros H.
  destruct (data (st t) !! key_of name) eqn:Hkey; [done|].
  destruct (Insert_loop t envs) as [r|] eqn:Hloop; [|done].
  apply Insert_loop_inv in Hloop as (env & Hin & -> & Hfree).
  destruct (EncodeDocument _) as [v|] eqn:Henc; [|by simplify_eq].
  destruct (writable (st t)); simplify_eq.
  repeat split; eauto.
Qed.

(** *** Insert on a name that is taken *)

Lemma Insert_taken (t : tableInfoStore) (name : string) (c : TableConfig)
    (envs : list entropy) :
  is_Some (data (st t) !! key_of name) →
  Insert t name c envs = Some (t, Err ErrTableAlreadyExists).
Proof. intros [v Hv]. unfold Insert, Get. by rewrite Hv. Qed.

(** C4. [Insert] on a name that has an entry returns
    [ErrTableAlreadyExists] and the store as it was. So after a first
    [Insert] of a name has succeeded, a second one fails in that way, and
    [Get] of the name returns a table info with the store id the first
    [Insert] returned. *)
Theorem Insert_twice `{!CodecLaws V} (t : tableInfoStore) (name : string)
    (c : TableConfig) (envs : list entropy) :
  (is_Some (data (st t) !! key_of name) →
     Insert t name c envs = Some (t, Err ErrTableAlreadyExists)) ∧
  (∀ (t1 : tableInfoStore) (ti : tableInfo) (c' : TableConfig) (envs' : list entropy),
     Insert t name c envs = Some (t1, Ok ti) →
     Insert t1 name c' envs' = Some (t1, Err ErrTableAlreadyExists) ∧
     ∃ ti', tableInfoStore_Get t1 name = Ok ti' ∧ storeID ti' = storeID ti).
Proof.
  split; [apply Insert_taken|].
  intros t1 ti c' envs' Hins.
  apply Insert_inv in Hins as (_ & _ & (env & _ & Hid & _) & v & Henc & Hst).
  assert (data (st t1) !! key_of name = Some v) as Hv
    by (rewrite Hst; apply lookup_insert_eq).
  split; [apply Insert_taken; eauto|].
  eexists. split.
  - eapply Get_stored; [done..|]. rewrite Hid. apply length_generateStoreID.
  - done.
Qed.

(** *** Replace *)

Lemma key_of_inj (a b : string) : key_of a = key_of b → a = b.
Proof.
  unfold key_of. intros H.
  rewrite <- (string_of_list_ascii_of_string a), <- (string_of_list_ascii_of_string b).
  by rewrite H.
Qed.

(** C10. A successful [Replace] of a table keeps the store id of its
    entry and gives it the new configuration; every other key of the
    store, and so the entry of every other table, is as it was. *)
Theorem Replace_frame `{!CodecLaws V} `{!ValueTypeLaws ValueType}
    (t t' : tableInfoStore) (name : string) (c : TableConfig) :
  Replace t name c = (t', None) →
  ∃ ti ti',
    tableInfoStore_Get t name = Ok ti ∧
    tableInfoStore_Get t' name = Ok ti' ∧
    storeID ti' = storeID ti ∧
    cfg ti' = c ∧
    (∀ key, key ≠ key_of name → data (st t') !! key = data (st t) !! key) ∧
    (∀ other, other ≠ name →
       tableInfoStore_Get t' other = tableInfoStore_Get t other).
Proof.
  unfold Replace. intros H.
  destruct (tableInfoStore_Get t name) as [ti|] eqn:Hget; [|by simplify_eq].
  destruct (EncodeDocument _) as [v|] eqn:Henc; [|by simplify_eq].
  unfold Put in H. destruct (writable (st t)); simplify_eq.
  apply Get_length_storeID in Hget as Hlen.
  exists ti. eexists. split; [done|]. split; [|split; [|split; [|split]]].
  - eapply Get_stored; [apply lookup_insert_eq | exact Henc | exact Hlen].
  - done.
  - cbn [cfg FieldConstraints]. rewrite map_reread_id. by destruct c.
  - intros key Hne. simpl. by rewrite lookup_insert_ne.
  - intros other Hne. unfold tableInfoStore_Get, Get. simpl.
    rewrite lookup_insert_ne; [done|]. intros Heq. by apply key_of_inj in Heq.
Qed.

(** *** The collision check of Insert *)

(** The loop accepts the first candidate id that is not the name of a
    table; the store ids of the tables play no part. *)
Lemma Insert_loop_first (t : tableInfoStore) (env : entropy) (envs : list entropy) :
  data (st t) !! generateStoreID env = None →
  Insert_loop t (env :: envs) = Some (Ok (generateStoreID env)).
Proof. intros H. simpl. unfold Get. by rewrite H. Qed.

End config.

Lemma TableConfig_ScanDocument_ToDocument_witness :
  TableConfig_ScanDocument (mkTableConfig []) (TableConfig_ToDocument models.cfg0)
  = (models.cfg0, None).
Proof.
  pose proof (TableConfig_ScanDocument_ToDocument (ValueType := ascii)
                (mkTableConfig []) models.cfg0) as H.
  destruct (TableConfig_ScanDocument _ _) as [t' err].
  destruct H as (-> & -> & _). reflexivity.
Defined.

Import models.

Lemma Insert_twice_witness :
  Insert store1 "users" cfg0 [env1] = Some (store1, Err ErrTableAlreadyExists) ∧
  ∃ ti', tableInfoStore_Get store1 "users" = Ok ti' ∧
         Some (storeID ti') = storeID <$> users_info.
Proof.
  split.
  - apply (proj1 (Insert_twice store1 "users" cfg0 [env1])).
    vm_compute. eauto.
  - destruct (proj2 (Insert_twice store0 "users" cfg0 [env0])
                store1 (mktableInfo (generateStoreID env0) cfg0) cfg0 [env1])
      as [_ (ti' & Hget & Hid)].
    + vm_compute. reflexivity.
    + exists ti'. split; [exact Hget|]. rewrite Hid. vm_compute. reflexivity.
Defined.

Lemma Replace_frame_witness :
  ∃ ti ti',
    tableInfoStore_Get store1 "users" = Ok ti ∧
    tableInfoStore_Get (Replace store1 "users" cfg1).1 "users" = Ok ti' ∧
    storeID ti' = storeID ti ∧ cfg ti' = cfg1.
Proof.
  destruct (Replace_frame store1 (Replace store1 "users" cfg1).1 "users" cfg1)
    as (ti & ti' & H1 & H2 & H3 & H4 & _).
  - vm_compute. reflexivity.
  - by exists ti, ti'.
Defined.

(** C3 on the code: two tables created while the clock and the random
    source give the same reading get the same store id. The check in
    [Insert] looks the candidate up among the table names, where it is not
    found. *)
Theorem Insert_same_storeID :
  ∃ t1 t2 ti_a ti_b,
    Insert store0 "a" cfg0 [env0] = Some (t1, Ok ti_a) ∧
    Insert t1 "b" cfg0 [env0] = Some (t2, Ok ti_b) ∧
    tableInfoStore_Get t2 "a" = Ok ti_a ∧
    tableInfoStore_Get t2 "b" = Ok ti_b ∧
    storeID ti_a = storeID ti_b.
Proof.
  do 4 eexists. split; [vm_compute; reflexivity|].
  split; [vm_compute; reflexivity|].
  split; [vm_compute; reflexivity|].
  split; [vm_compute; reflexivity|]. reflexivity.
Qed.

End database_facts.

(** ** The query parser *)
Module query_facts.
Import query query_terms.

(** *** The parser on the expressions and statements of parser_test.go *)

(** Twice the distance from [f10_4] to 104/10 is at most one unit in its
    last place, [2 ^ -49]. *)
Lemma f10_4_nearest : Z.abs (10 * 5854679515581645 - 104 * 2 ^ 49) * 2 <= 10.
Proof. vm_compute. discriminate. Qed.

Lemma TestParserExpr_cases :
  ParseExpr "age = 10" = Ok (Eq (Field "age") (Int64Value 10)) ∧
  ParseExpr "age = 10 AND age <= 11"
    = Ok (And (Eq (Field "age") (Int64Value 10)) (Lte (Field "age") (Int64Value 11))) ∧
  ParseExpr "age = 10 OR age = 11"
    = Ok (Or (Eq (Field "age") (Int64Value 10)) (Eq (Field "age") (Int64Value 11))).
Proof. repeat split; vm_compute; reflexivity. Qed.

Lemma TestParserParams_cases :
  ParseExpr "age = ?" = Ok (Eq (Field "age") (PositionalParam 1)) ∧
  ParseExpr "age = ? AND age <= ?"
    = Ok (And (Eq (Field "age") (PositionalParam 1)) (Lte (Field "age") (PositionalParam 2))) ∧
  ParseExpr "age = $age" = Ok (Eq (Field "age") (NamedParam "age")) ∧
  ParseExpr "age = $foo OR age = $bar"
    = Ok (Or (Eq (Field "age") (NamedParam "foo")) (Eq (Field "age") (NamedParam "bar"))).
Proof. repeat split; vm_compute; reflexivity. Qed.

Lemma TestParserSelect_cases :
  ParseQuery "SELECT * FROM test" = Ok [Select [] "test" None] ∧
  ParseQuery "SELECT a, b FROM test" = Ok [Select [Field "a"; Field "b"] "test" None] ∧
  ParseQuery "SELECT * FROM test WHERE age = 10"
    = Ok [Select [] "test" (Some (Eq (Field "age") (Int64Value 10)))].
Proof. repeat split; vm_compute; reflexivity. Qed.

Lemma TestParserDelete_cases :
  ParseQuery "DELETE FROM test" = Ok [Delete "test" None] ∧
  ParseQuery "DELETE FROM test WHERE age = 10"
    = Ok [Delete "test" (Some (Eq (Field "age") (Int64Value 10)))].
Proof. repeat split; vm_compute; reflexivity. Qed.

Lemma TestParserUpdate_cases :
  ParseQuery "UPDATE test SET a = 1" = Ok [Update "test" [("a", Int64Value 1)] None] ∧
  ParseQuery "UPDATE test SET a = 1, b = 2 WHERE age = 10"
    = Ok [Update "test" [("a", Int64Value 1); ("b", Int64Value 2)]
                 (Some (Eq (Field "age") (Int64Value 10)))] ∧
  is_Err (ParseQuery "UPDATE test SET a = 1, WHERE age = 10") ∧
  is_Err (ParseQuery "UPDATE test WHERE age = 10") ∧
  is_Err (ParseQuery "UPDATE test SET WHERE age = 10") ∧
  is_Err (ParseQuery "UPDATE test SET a WHERE age = 10") ∧
  is_Err (ParseQuery "UPDATE test SET a = WHERE age = 10").
Proof. repeat split; vm_compute; reflexivity. Qed.

Lemma TestParserInsert_cases :
  ParseQuery "INSERT INTO test VALUES ('a', 'b', 'c')"
    = Ok [Insert "test" [] [[StringValue "a"; StringValue "b"; StringValue "c"]] []] ∧
  ParseQuery "INSERT INTO test (a, b) VALUES ('c', 'd', 'e')"
    = Ok [Insert "test" ["a"; "b"]%string
                 [[StringValue "c"; StringValue "d"; StringValue "e"]] []] ∧
  ParseQuery "INSERT INTO test (a, b) VALUES ('c', 'd'), ('e', 'f')"
    = Ok [Insert "test" ["a"; "b"]%string
                 [[StringValue "c"; StringValue "d"]; [StringValue "e"; StringValue "f"]] []] ∧
  ParseQuery "INSERT INTO test RECORDS (a: 'a', b: 2.3, c: 1 = 1)"
    = Ok [Insert "test" [] []
                 [RecordPairs [("a", StringValue "a"); ("b", Float64Value f2_3);
                               ("c", Eq (Int64Value 1) (Int64Value 1))]]] ∧
  ParseQuery "INSERT INTO test RECORDS (a: 'a', b: 2.3, c: 1 = 1), (a: 1, d: true)"
    = Ok [Insert "test" [] []
                 [RecordPairs [("a", StringValue "a"); ("b", Float64Value f2_3);
                               ("c", Eq (Int64Value 1) (Int64Value 1))];
                  RecordPairs [("a", Int64Value 1); ("d", BoolValue true)]]] ∧
  ParseQuery "INSERT INTO test RECORDS ?, ?"
    = Ok [Insert "test" [] []
                 [RecordParam (PositionalParam 1); RecordParam (PositionalParam 2)]] ∧
  ParseQuery "INSERT INTO test RECORDS $foo, $bar"
    = Ok [Insert "test" [] []
                 [RecordParam (NamedParam "foo"); RecordParam (NamedParam "bar")]].
Proof. repeat split; vm_compute; reflexivity. Qed.

Lemma TestParserCreateTable_cases :
  ParseQuery "CREATE TABLE test" = Ok [CreateTable "test" false] ∧
  ParseQuery "CREATE TABLE test IF NOT EXISTS" = Ok [CreateTable "test" true].
Proof. repeat split; vm_compute; reflexivity. Qed.


(** *** The parameter mixing rule *)

Lemma count_positional_app (l1 l2 : list item) :
  count_positional (l1 ++ l2) = (count_positional l1 + count_positional l2)%nat.
Proof. unfold count_positional. by rewrite List.filter_app, length_app. Qed.

Lemma count_named_app (l1 l2 : list item) :
  count_named (l1 ++ l2) = (count_named l1 + count_named l2)%nat.
Proof. unfold count_named. by rewrite List.filter_app, length_app. Qed.

Lemma Good_still {A : Type} (p : parser A) :
  (∀ st a st', p st = Ok (a, st') → st' = st) → Good (λ _, p).
Proof.
  intros Hp. split.
  - intros _ st a st' H. apply Hp in H as ->. exists []. simpl.
    unfold count_positional, count_named. simpl. split_and!; [done | lia | lia].
  - intros st a st' H. by apply Hp in H as ->.
  - intros st a st' H. by left.
Qed.

Lemma Good_ret {A : Type} (a : A) : Good (λ _, mret a).
Proof. apply Good_still. by intros st b st' [= _ ->]. Qed.

Lemma Good_fail {A : Type} (e : error) : Good (λ _, @fail A e).
Proof. by apply Good_still. Qed.

Lemma Good_unexpected {A : Type} (it : item) (msg : string) :
  Good (λ _, @unexpected A it msg).
Proof. by apply Good_still. Qed.

Lemma Good_get_positional : Good (λ _, get_positional).
Proof. apply Good_still. by intros st b st' [= _ ->]. Qed.

Lemma Good_peek : Good (λ _, peek).
Proof.
  apply Good_still. unfold peek. intros st a st'.
  destruct (scanned (current st)); [|done]. by intros [= _ ->].
Qed.

Lemma Good_next : Good next.
Proof.
  split.
  - intros strict st a st'. unfold next, current.
    destruct st as [[|it rest] np nn]; simpl.
    + intros [= _ <-]. exists []. simpl. unfold count_positional, count_named. simpl.
      split_and!; [done | lia | lia].
    + destruct (scanned it) as [it'|] eqn:Hsc; [|done].
      assert (it' = it) as -> by (unfold scanned in Hsc; by repeat case_match; simplify_eq).
      intros H. exists [it]. unfold count_positional, count_named, is_positional, is_named.
      simpl. repeat case_match; simplify_eq; simpl; split_and!; try done; lia.
  - intros st a st'. unfold next, mixed.
    destruct (scanned (current st)) as [it|]; [|done].
    destruct (tok it); simpl;
      try (intros [= _ <-]; simpl; tauto).
    + destruct (0 <? named st)%nat eqn:E; [done|]. apply Nat.ltb_ge in E.
      intros [= _ <-]. simpl. lia.
    + destruct (0 <? positional st)%nat eqn:E; [done|]. apply Nat.ltb_ge in E.
      intros [= _ <-]. simpl. lia.
  - intros st a st'. unfold next.
    destruct (scanned (current st)) as [it|]; [|done].
    destruct (tok it); simpl; auto.
    + destruct (0 <? named st)%nat; auto.
    + destruct (0 <? positional st)%nat; auto.
Qed.

Lemma Good_bind {A B : Type} (p : bool → parser A) (f : bool → A → parser B) :
  Good p → (∀ a, Good (λ strict, f strict a)) → Good (λ strict, p strict ≫= f strict).
Proof.
  intros Hp Hf. split.
  - intros strict st b st'. unfold mbind, parser_bind.
    destruct (p strict st) as [[a st1]|] eqn:H1; [|done]. intros H2.
    destruct (good_track _ Hp _ _ _ _ H1) as (t1 & Hi1 & Hp1 & Hn1).
    destruct (good_track _ (Hf a) _ _ _ _ H2) as (t2 & Hi2 & Hp2 & Hn2).
    exists (t1 ++ t2). rewrite count_positional_app, count_named_app.
    rewrite Hi1, Hi2, <- app_assoc. split_and!; [done | lia | lia].
  - intros st b st'. unfold mbind, parser_bind.
    destruct (p true st) as [[a st1]|] eqn:H1; [|done]. intros H2 Hst.
    eapply (good_sound _ (Hf a)); [exact H2|].
    by eapply (good_sound _ Hp).
  - intros st b st'. unfold mbind, parser_bind.
    destruct (p false st) as [[a st1]|] eqn:H1; [|done]. intros H2.
    destruct (good_sim _ Hp _ _ _ H1) as [-> | ->]; [|by right].
    exact (good_sim _ (Hf a) _ _ _ H2).
Qed.

(** When a parser of the grammar succeeds without the rule and ends in a
    mixed state, under the rule it fails with [MixedParameters]. *)
Lemma Good_mixed {A : Type} (p : bool → parser A) (st st' : state) (a : A) :
  Good p → ¬ mixed st → p false st = Ok (a, st') → mixed st' →
  p true st = Err MixedParameters.
Proof.
  intros Hp Hst H Hmix.
  destruct (good_sim _ Hp _ _ _ H) as [Hok|Herr]; [|done].
  exfalso. by apply (good_sound _ Hp _ _ _ Hok Hst).
Qed.

Create HintDb good discriminated.

Hint Resolve Good_ret Good_fail Good_unexpected Good_get_positional Good_peek Good_next : good.

(** Parsers are goals of a fixed shape: binds, matches on the token read,
    and calls of parsers already shown good. *)
Ltac good_step :=
  match goal with
  | |- Good (λ strict, _ ≫= _) => apply Good_bind; [|intros ?]
  | |- Good (λ strict, match ?x with _ => _ end) => destruct x
  | |- Good (λ strict, if ?x then _ else _) => destruct x
  | |- Good _ => solve [eauto with good]
  end.

Ltac good := repeat good_step.

Lemma Good_expectKeyword (k : keyword) (msg : string) :
  Good (λ strict, expectKeyword strict k msg).
Proof. unfold expectKeyword. good. Qed.

Lemma Good_expectLParen : Good expectLParen.
Proof. unfold expectLParen. good. Qed.

Lemma Good_expectRParen : Good expectRParen.
Proof. unfold expectRParen. good. Qed.

Lemma Good_expectColon : Good expectColon.
Proof. unfold expectColon. good. Qed.

Lemma Good_expectEq : Good expectEq.
Proof. unfold expectEq. good. Qed.

Lemma Good_parseIdent (msg : string) : Good (λ strict, parseIdent strict msg).
Proof. unfold parseIdent. good. Qed.

Hint Resolve Good_expectKeyword Good_expectLParen Good_expectRParen Good_expectColon
  Good_expectEq Good_parseIdent : good.

Lemma Good_sepByRest {A : Type} (p : bool → parser A) (n : nat) (acc : list A) :
  Good p → Good (λ strict, sepByRest strict (p strict) n acc).
Proof.
  intros Hp. revert acc. induction n as [|n IH]; intros acc; simpl; good.
Qed.

Lemma Good_sepBy1 {A : Type} (p : bool → parser A) (n : nat) :
  Good p → Good (λ strict, sepBy1 strict (p strict) n).
Proof. intros Hp. unfold sepBy1. good. by apply Good_sepByRest. Qed.

Lemma Good_parseFieldRest (n : nat) (acc : string) :
  Good (λ strict, parseFieldRest strict n acc).
Proof. revert acc. induction n as [|n IH]; intros acc; simpl; good. Qed.

Lemma Good_parseField (n : nat) : Good (λ strict, parseField strict n).
Proof. unfold parseField. good. apply Good_parseFieldRest. Qed.

Hint Resolve Good_sepBy1 Good_parseField : good.

Lemma Good_parsePrimary (expr : bool → parser Expr) (n : nat) :
  Good expr → Good (λ strict, parsePrimary strict (expr strict) n).
Proof. intros He. unfold parsePrimary. good. Qed.

Lemma Good_parseCmp (primary : bool → parser Expr) :
  Good primary → Good (λ strict, parseCmp strict (primary strict)).
Proof. intros Hp. unfold parseCmp. good. Qed.

Lemma Good_parseAndRest (cmp : bool → parser Expr) (n : nat) (a : Expr) :
  Good cmp → Good (λ strict, parseAndRest strict (cmp strict) n a).
Proof. intros Hc. revert a. induction n as [|n IH]; intros a; simpl; good. Qed.

Lemma Good_parseAnd (cmp : bool → parser Expr) (n : nat) :
  Good cmp → Good (λ strict, parseAnd strict (cmp strict) n).
Proof. intros Hc. unfold parseAnd. good. by apply Good_parseAndRest. Qed.

Lemma Good_parseOrRest (and_ : bool → parser Expr) (n : nat) (a : Expr) :
  Good and_ → Good (λ strict, parseOrRest strict (and_ strict) n a).
Proof. intros Hc. revert a. induction n as [|n IH]; intros a; simpl; good. Qed.

Lemma Good_parseOr (and_ : bool → parser Expr) (n : nat) :
  Good and_ → Good (λ strict, parseOr strict (and_ strict) n).
Proof. intros Hc. unfold parseOr. good. by apply Good_parseOrRest. Qed.

Lemma Good_parseExpr (n : nat) : Good (λ strict, parseExpr strict n).
Proof.
  induction n as [|n IH]; simpl; [good|].
  apply (Good_parseOr (λ strict, parseAnd strict (parseCmp strict
           (parsePrimary strict (parseExpr strict n) n)) n)).
  apply (Good_parseAnd (λ strict, parseCmp strict
           (parsePrimary strict (parseExpr strict n) n))).
  apply (Good_parseCmp (λ strict, parsePrimary strict (parseExpr strict n) n)).
  by apply Good_parsePrimary.
Qed.

Hint Resolve Good_parseExpr : good.

Lemma Good_parseWhere (n : nat) : Good (λ strict, parseWhere strict n).
Proof. unfold parseWhere. good. Qed.

Hint Resolve Good_parseWhere : good.

Lemma Good_parseSelect (n : nat) : Good (λ strict, parseSelect strict n).
Proof.
  unfold parseSelect. good.
  all: apply (Good_sepBy1 (λ strict, name ← parseField strict n; mret (Field name))); good.
Qed.

Lemma Good_parseDelete (n : nat) : Good (λ strict, parseDelete strict n).
Proof. unfold parseDelete. good. Qed.

Lemma Good_parseAssignment (n : nat) : Good (λ strict, parseAssignment strict n).
Proof. unfold parseAssignment. good. Qed.

Hint Resolve Good_parseAssignment : good.

Lemma Good_parseUpdate (n : nat) : Good (λ strict, parseUpdate strict n).
Proof.
  unfold parseUpdate. good.
Qed.

Lemma Good_parseValueList (n : nat) : Good (λ strict, parseValueList strict n).
Proof.
  unfold parseValueList. good.
Qed.

Lemma Good_parsePair (n : nat) : Good (λ strict, parsePair strict n).
Proof. unfold parsePair. good. Qed.

Hint Resolve Good_parsePair Good_parseValueList : good.

Lemma Good_parseRecordSpec (n : nat) : Good (λ strict, parseRecordSpec strict n).
Proof.
  unfold parseRecordSpec. good.
Qed.

Hint Resolve Good_parseRecordSpec : good.

Lemma Good_parseInsert (n : nat) : Good (λ strict, parseInsert strict n).
Proof.
  unfold parseInsert. good.
Qed.

Lemma Good_parseCreate : Good parseCreate.
Proof. unfold parseCreate. good. Qed.

Hint Resolve Good_parseSelect Good_parseDelete Good_parseUpdate Good_parseInsert
  Good_parseCreate : good.

Lemma Good_parseStatementBody (n : nat) : Good (λ strict, parseStatementBody strict n).
Proof. unfold parseStatementBody. good. Qed.

Lemma count_positional_pos (taken : list item) (it : item) :
  it ∈ taken → tok it = POSITIONALPARAM → (0 < count_positional taken)%nat.
Proof.
  intros Hin Htok. unfold count_positional.
  assert (In it (List.filter is_positional taken)) as Hf.
  { apply List.filter_In. split; [by apply list_elem_of_In|].
    unfold is_positional. by rewrite Htok. }
  destruct (List.filter is_positional taken); [done | simpl; lia].
Qed.

Lemma count_named_pos (taken : list item) (it : item) (name : string) :
  it ∈ taken → tok it = NAMEDPARAM name → (0 < count_named taken)%nat.
Proof.
  intros Hin Htok. unfold count_named.
  assert (In it (List.filter is_named taken)) as Hf.
  { apply List.filter_In. split; [by apply list_elem_of_In|].
    unfold is_named. by rewrite Htok. }
  destruct (List.filter is_named taken); [done | simpl; lia].
Qed.

(** A parser of the grammar that, without the rule, accepts tokens showing
    both kinds of parameters, rejects them under the rule. *)
Lemma Good_rejects_both {A : Type} (p : bool → parser A)
    (taken rest : list item) (a : A) (st' : state) :
  Good p →
  p false (start (taken ++ rest)) = Ok (a, st') → input st' = rest →
  shows_both taken →
  p true (start (taken ++ rest)) = Err MixedParameters.
Proof.
  intros Hp Hok Hrest [(it1 & Hin1 & Htok1) (it2 & name & Hin2 & Htok2)].
  eapply (Good_mixed p); [done | | exact Hok |].
  - unfold mixed, start. simpl. lia.
  - destruct (good_track _ Hp _ _ _ _ Hok) as (taken' & Hi & Hpos & Hnam).
    simpl in Hi, Hpos, Hnam. rewrite Hrest in Hi. apply app_inv_tail in Hi as <-.
    pose proof (count_positional_pos _ _ Hin1 Htok1).
    pose proof (count_named_pos _ _ _ Hin2 Htok2).
    unfold mixed. lia.
Qed.

Lemma parseStatement_start (strict : bool) (n : nat) (toks : list item) :
  parseStatement strict n (start toks) = parseStatementBody strict n (start toks).
Proof. reflexivity. Qed.

(** C6. Take any tokens of which a statement, or an expression, is made
    when the mixing rule is left out, and which show a positional and a named
    parameter: the parser fails on them with [MixedParameters]. So it does on
    the expression of the scenario, and no expression is returned. *)
Theorem mixed_parameters_rejected :
  (∀ (n : nat) (taken rest : list item) (s : Statement) (st' : state),
     parseStatement false n (start (taken ++ rest)) = Ok (s, st') →
     input st' = rest → shows_both taken →
     parseStatement true n (start (taken ++ rest)) = Err MixedParameters) ∧
  (∀ (n : nat) (taken rest : list item) (e : Expr) (st' : state),
     parseExpr false n (start (taken ++ rest)) = Ok (e, st') →
     input st' = rest → shows_both taken →
     parseExpr true n (start (taken ++ rest)) = Err MixedParameters) ∧
  ParseExpr "age >= ? AND age > $foo OR age < ?" = Err MixedParameters ∧
  ParseQuery "SELECT * FROM t WHERE age >= ? AND age > $foo" = Err MixedParameters.
Proof.
  split_and!.
  - intros n taken rest s st' Hok Hrest Hboth.
    rewrite parseStatement_start in *.
    eapply (Good_rejects_both (λ strict, parseStatementBody strict n));
      [apply Good_parseStatementBody | done..].
  - intros n taken rest e st' Hok Hrest Hboth.
    eapply (Good_rejects_both (λ strict, parseExpr strict n));
      [apply Good_parseExpr | done..].
  - vm_compute. reflexivity.
  - vm_compute. reflexivity.
Qed.

Lemma mixed_parameters_rejected_witness :
  parseStatement true 12%nat (start (mixed_update ++ [mkItem EOF 1 32])) = Err MixedParameters ∧
  parseExpr true 12%nat (start (mixed_expr ++ [mkItem EOF 1 35])) = Err MixedParameters.
Proof.
  split.
  - apply (proj1 mixed_parameters_rejected 12%nat mixed_update [mkItem EOF 1 32]
             (Update "t" [("a", PositionalParam 1)] (Some (Eq (Field "b") (NamedParam "x"))))
             (mkState [mkItem EOF 1 32] 1 1)).
    + vm_compute. reflexivity.
    + reflexivity.
    + split.
      * exists (mkItem POSITIONALPARAM 1 18). split; [|done].
        apply list_elem_of_In. vm_compute. tauto.
      * exists (mkItem (NAMEDPARAM "x") 1 30), "x"%string. split; [|done].
        apply list_elem_of_In. vm_compute. tauto.
  - apply (proj1 (proj2 mixed_parameters_rejected) 12%nat mixed_expr [mkItem EOF 1 35]
             (Or (And (Gte (Field "age") (PositionalParam 1))
                      (Gt (Field "age") (NamedParam "foo")))
                 (Lt (Field "age") (PositionalParam 2)))
             (mkState [mkItem EOF 1 35] 2 1)).
    + vm_compute. reflexivity.
    + reflexivity.
    + split.
      * exists (mkItem POSITIONALPARAM 1 8). split; [|done].
        apply list_elem_of_In. vm_compute. tauto.
      * exists (mkItem (NAMEDPARAM "foo") 1 20), "foo"%string. split; [|done].
        apply list_elem_of_In. vm_compute. tauto.
Defined.

(** *** Queries of several statements *)

Lemma peek_token (it : item) (rest : list item) (p q : nat) :
  scanned it = Ok it → peek (mkState (it :: rest) p q) = Ok (it, mkState (it :: rest) p q).
Proof. intros H. unfold peek, current. simpl. by rewrite H. Qed.

Lemma parseQueryLoop_skip (strict : bool) (n : nat) (semis : list item) :
  Forall is_semicolon semis →
  ∀ budget semi acc rest p q,
    parseQueryLoop strict n (length semis + budget) semi acc (mkState (semis ++ rest) p q)
    = parseQueryLoop strict n budget (match semis with [] => semi | _ => true end) acc
                     (mkState rest p q).
Proof.
  induction 1 as [|[t l c] semis Hit Hsemis IH]; intros budget semi acc rest p q; [done|].
  unfold is_semicolon in Hit. simpl in Hit. subst t.
  cbn [length Nat.add app parseQueryLoop].
  unfold mbind at 1, parser_bind at 1. rewrite peek_token by done.
  cbn [tok]. unfold mbind at 1, parser_bind at 1.
  unfold next, current. cbn [input scanned tok tail positional named].
  rewrite IH. by destruct semis.
Qed.

Lemma parseQueryLoop_end (strict : bool) (n budget : nat) (semi : bool)
    (acc : list Statement) (eof : item) (p q : nat) :
  tok eof = EOF →
  parseQueryLoop strict n (S budget) semi acc (mkState [eof] p q)
  = Ok (acc, mkState [eof] p q).
Proof.
  destruct eof as [t l c]. simpl. intros ->.
  unfold mbind, parser_bind. by rewrite peek_token.
Qed.

(** A statement starts with a keyword. *)
Lemma parseStatement_keyword (strict : bool) (n : nat) (st : state) (r : Statement * state) :
  parseStatement strict n st = Ok r →
  scanned (current st) = Ok (current st) ∧ ∃ k, tok (current st) = KEYWORD k.
Proof.
  unfold parseStatement, parseStatementBody, reset_params, mbind, parser_bind, peek.
  replace (current (mkState (input st) 0 0)) with (current st) by done.
  destruct (scanned (current st)) as [it|] eqn:Hsc; [|done].
  assert (it = current st) as ->
    by (unfold scanned in Hsc; by repeat case_match; simplify_eq).
  intros H. split; [done|]. destruct (tok (current st)); try done. eauto.
Qed.

Lemma separated_head (n : nat) (bs : list block) (trailing : list item) (eof : item) :
  separated n false bs → Forall is_semicolon trailing → tok eof = EOF →
  ∃ sep rest, flatten bs ++ trailing ++ [eof] = sep :: rest ∧ ends_statement sep.
Proof.
  intros Hbs Htr Heof. destruct bs as [|b bs]; simpl.
  - destruct Htr as [|it trailing Hit _]; simpl.
    + exists eof, []. split; [done | by right].
    + eexists _, _. split; [done | by left].
  - destruct Hbs as (Hsemis & [?|Hne] & _); [done|].
    destruct Hsemis as [|it semis Hit _]; [done|]. simpl.
    eexists _, _. split; [done | by left].
Qed.

Lemma parseQueryLoop_blocks (n : nat) (trailing : list item) (eof : item) :
  Forall is_semicolon trailing → tok eof = EOF →
  ∀ (blocks : list block) (budget : nat) (semi : bool) (acc : list Statement) (p q : nat),
    separated n semi blocks →
    (length (flatten blocks ++ trailing) < budget)%nat →
    ∃ p' q',
      parseQueryLoop true n budget semi acc (mkState (flatten blocks ++ trailing ++ [eof]) p q)
      = Ok (acc ++ map statement blocks, mkState [eof] p' q').
Proof.
  intros Htr Heof. induction blocks as [|b bs IH]; intros budget semi acc p q Hsep Hlen.
  - simpl in *. exists p, q. rewrite app_nil_r.
    replace budget with (length trailing + S (budget - S (length trailing)))%nat by lia.
    rewrite parseQueryLoop_skip by done. by apply parseQueryLoop_end.
  - destruct Hsep as (Hsemis & Hfirst & Hparse & Hbs).
    destruct (separated_head n bs trailing eof Hbs Htr Heof) as (sep & rest & Hrest & Hsepend).
    destruct (Hparse sep rest p q Hsepend) as (p' & q' & Hstmt).
    apply parseStatement_keyword in Hstmt as Hkey. destruct Hkey as [Hsc [k Hk]].
    destruct (statement_tokens b) as [|it ts] eqn:Hts.
    { simpl in Hk. unfold current in Hk. simpl in Hk.
      destruct Hsepend as [Hs|Hs]; rewrite Hs in Hk; done. }
    assert (Hinput : flatten (b :: bs) ++ trailing ++ [eof]
                     = separators b ++ (it :: ts) ++ sep :: rest).
    { cbn [flatten]. rewrite Hts, <- Hrest. by rewrite <- !app_assoc. }
    assert (Hbudget : (length (separators b) + S (length (flatten bs ++ trailing)) < budget)%nat).
    { cbn [flatten] in Hlen. rewrite Hts in Hlen. rewrite !length_app in Hlen.
      rewrite length_app. simpl in Hlen. lia. }
    rewrite Hinput.
    replace budget with (length (separators b) + S (budget - S (length (separators b))))%nat
      by lia.
    rewrite parseQueryLoop_skip by done.
    set (semi' := match separators b with [] => semi | _ => true end).
    assert (semi' = true) as ->.
    { unfold semi'. destruct Hfirst as [->|Hne]; destruct (separators b); done. }
    cbn [parseQueryLoop].
    unfold current in Hsc, Hk. simpl in Hsc, Hk.
    unfold mbind at 1, parser_bind at 1. simpl app. rewrite peek_token by done.
    rewrite Hk. unfold mbind at 1, parser_bind at 1.
    simpl app in Hstmt. rewrite Hstmt.
    destruct (IH (budget - S (length (separators b)))%nat false (acc ++ [statement b]) p' q' Hbs)
      as (p'' & q'' & HIH); [lia|].
    exists p'', q''. rewrite <- Hrest. rewrite HIH.
    by rewrite <- app_assoc.
Qed.

Lemma scan_semicolons (k : nat) :
  ∀ (budget line col : nat), (k < budget)%nat →
    ∃ semis eof, scan budget (replicate k ";"%char) line col = semis ++ [eof] ∧
                 Forall is_semicolon semis ∧ tok eof = EOF.
Proof.
  induction k as [|k IH]; intros budget line col Hb.
  - destruct budget as [|budget]; [lia|]. simpl.
    exists [], (mkItem EOF line col). by split_and!.
  - destruct budget as [|budget]; [lia|].
    destruct (IH budget line (S col)) as (semis & eof & Hscan & Hsemis & Heof); [lia|].
    exists (mkItem SEMICOLON line col :: semis), eof. split_and!; [|by constructor|done].
    cbn [replicate scan].
    change (isWhitespace ";") with false. cbv iota.
    change (scan_token (";"%char :: replicate k ";"%char))
      with (SEMICOLON, replicate k ";"%char).
    cbn [length]. replace (S (length (replicate k ";"%char)) - length (replicate k ";"%char))%nat
      with 1%nat by lia.
    cbn [take advance]. change (isNewline ";") with false. cbv iota.
    rewrite take_0. cbn [advance]. by rewrite Hscan.
Qed.

Lemma tokenize_semicolons (k : nat) :
  ∃ semis eof, tokenize (semicolons k) = semis ++ [eof] ∧
               Forall is_semicolon semis ∧ tok eof = EOF.
Proof.
  unfold tokenize, semicolons. rewrite list_ascii_of_string_of_list_ascii.
  apply scan_semicolons. rewrite length_replicate. lia.
Qed.

Lemma ParseQuery_blocks (text : string) (blocks : list block) (trailing : list item) (eof : item) :
  tokenize text = flatten blocks ++ trailing ++ [eof] →
  separated (length (tokenize text)) true blocks →
  Forall is_semicolon trailing → tok eof = EOF →
  ParseQuery text = Ok (map statement blocks).
Proof.
  intros Htoks Hsep Htr Heof. unfold ParseQuery, run, start.
  destruct (parseQueryLoop_blocks (length (tokenize text)) trailing eof Htr Heof
              blocks (S (length (tokenize text))) true [] 0%nat 0%nat Hsep)
    as (p' & q' & Hloop).
  - rewrite Htoks, !length_app. simpl. lia.
  - rewrite <- Htoks in Hloop. by rewrite Hloop.
Qed.

(** C7. A text of nothing but separators parses to the empty list of
    statements. A text whose tokens are statements, each but the first with
    one separator or more before it, then any separators and the end of
    input, parses to those statements in their order. So it is for the two
    texts of the scenarios. *)
Theorem ParseQuery_statements :
  (∀ k : nat, ParseQuery (semicolons k) = Ok []) ∧
  (∀ (text : string) (blocks : list block) (trailing : list item) (eof : item),
     tokenize text = flatten blocks ++ trailing ++ [eof] →
     separated (length (tokenize text)) true blocks →
     Forall is_semicolon trailing → tok eof = EOF →
     ParseQuery text = Ok (map statement blocks)) ∧
  ParseQuery ";;;" = Ok [] ∧
  ParseQuery "SELECT * FROM foo;;;DELETE FROM foo;"
    = Ok [Select [] "foo" None; Delete "foo" None].
Proof.
  split_and!.
  - intros k. destruct (tokenize_semicolons k) as (semis & eof & Htoks & Hsemis & Heof).
    by apply (ParseQuery_blocks _ [] semis eof).
  - apply ParseQuery_blocks.
  - vm_compute. reflexivity.
  - vm_compute. reflexivity.
Qed.

Lemma ParseQuery_statements_witness :
  ParseQuery "SELECT * FROM foo;;;DELETE FROM foo;"
  = Ok (map statement [select_foo; delete_foo]).
Proof.
  apply (proj1 (proj2 ParseQuery_statements) "SELECT * FROM foo;;;DELETE FROM foo;"
           [select_foo; delete_foo] [mkItem SEMICOLON 1 36] (mkItem EOF 1 37)).
  - vm_compute. reflexivity.
  - simpl. split_and!; try done; try (by left); try (by right).
    + intros [t l c] rest p q [H|H]; simpl in H; subst t; by exists 0%nat, 0%nat.
    + by repeat constructor.
    + intros [t l c] rest p q [H|H]; simpl in H; subst t; by exists 0%nat, 0%nat.
  - by repeat constructor.
  - reflexivity.
Defined.

End query_facts.

(** * Further properties *)

(** ** More on the index and its cursor *)
Module bolt_more.
Import bolt bolt_terms bolt_more_terms bolt_facts.

(** *** Failed writes *)

Lemma Index_Set_failed (i i' : Index) (value rowid : bytes) (e : error) :
  Index_Set i value rowid = (i', Some e) → i' = i.
Proof.
  destruct i as [bu]. unfold Index_Set, bbolt.Put. simpl.
  intros H. repeat case_match; by simplify_eq.
Qed.

(** X1. A call of [Set] that returns an error leaves the index as it was.
    With an empty value the error is the one of [Set] itself; with a value,
    on a bucket of a read-only transaction, it is
    [ErrTransactionReadOnly]. *)
Theorem Index_Set_error (i : Index) (value rowid : bytes) :
  (∀ i' e, Index_Set i value rowid = (i', Some e) → i' = i) ∧
  (value = [] → Index_Set i value rowid = (i, Some ErrValueNil)) ∧
  (value ≠ [] → bbolt.writable (ib i) = false →
     Index_Set i value rowid = (i, Some ErrTransactionReadOnly)).
Proof.
  split_and!.
  - intros i' e. apply Index_Set_failed.
  - intros ->. done.
  - intros Hne Hro. destruct i as [bu]. unfold Index_Set, bbolt.Put. simpl in *.
    rewrite Hro. simpl. rewrite decide_False; [done|]. by destruct value.
Qed.

Lemma Index_Set_error_witness :
  Index_Set read_only (B "bob") (B "2") = (read_only, Some ErrTransactionReadOnly).
Proof.
  apply (proj2 (proj2 (Index_Set_error read_only (B "bob") (B "2")))); done.
Defined.

(** *** Keys hold the separator, and the cursor does not panic *)

Lemma LastIndexByte_from_found (s : bytes) (c : ascii) (i : nat) :
  (∃ j, (j < i)%nat ∧ s !! j = Some c) →
  0 <= LastIndexByte_from i s c < Z.of_nat i.
Proof.
  induction i as [|i IH]; intros (j & Hj & Hlook); [lia|]. simpl.
  destruct (decide (s !! i = Some c)) as [|Hne]; [lia|].
  assert (j ≠ i) by (intros ->; done).
  destruct IH as [? ?]; [exists j; split; [lia | done]|]. lia.
Qed.

Lemma decode_Ret (k v : bytes) :
  sep ∈ k → ∃ value, decode (k, v) = Ret (Some (value, v)).
Proof.
  intros Hin. apply list_elem_of_lookup_1 in Hin as [j Hj].
  pose proof (lookup_lt_Some _ _ _ Hj) as Hlt.
  destruct (LastIndexByte_from_found k sep (length k)) as [H0 H1]; [by exists j|].
  unfold decode, slice_to, LastIndexByte. rewrite decide_True by lia. eauto.
Qed.

Lemma bbolt_items_elem (bu : bbolt.Bucket) (k v : bytes) :
  (k, v) ∈ bbolt.items bu ↔ bbolt.kv bu !! k = Some v.
Proof. unfold bbolt.items. rewrite merge_sort_Permutation. apply elem_of_map_to_list. Qed.

(** X2. The index that [Set] builds has the separator in every key: the
    empty index has, and [Set] keeps it so. On such an index no positioning
    method of a cursor panics. *)
Theorem composite_keys_kept :
  (∀ w, composite_keys (NewIndex (bbolt.mkBucket ∅ w))) ∧
  (∀ i value rowid, composite_keys i → composite_keys (Index_Set i value rowid).1) ∧
  (∀ i cu seek r, composite_keys i → bbolt.bucket (c cu) = ib i →
     r ∈ positioned cu seek → r ≠ Panic).
Proof.
  split_and!.
  - intros w k v. simpl. by rewrite lookup_empty.
  - intros i value rowid Hi.
    destruct (Index_Set i value rowid) as [i' [e|]] eqn:Hset.
    + by apply Index_Set_failed in Hset as ->.
    + apply Index_Set_written in Hset as [_ Hkv]. simpl.
      intros k v. rewrite Hkv. intros [[<- <-]|[_ Hk]]%lookup_insert_Some.
      * rewrite !elem_of_app, list_elem_of_singleton. auto.
      * by eapply Hi.
  - intros i cu seek r Hi Hbu Hr.
    apply positioned_decode in Hr as [->|([k v] & Hin & ->)]; [done|].
    rewrite Hbu in Hin. apply bbolt_items_elem in Hin.
    destruct (decode_Ret k v) as [value ->]; [by eapply Hi | done].
Qed.

Lemma composite_keys_kept_witness :
  (Cursor_Seek (Index_Cursor three) (B "b")).1 ≠ Panic.
Proof.
  apply (proj2 (proj2 composite_keys_kept) three (Index_Cursor three) (B "b")).
  - unfold three.
    repeat apply (proj1 (proj2 composite_keys_kept)).
    apply (proj1 composite_keys_kept).
  - done.
  - unfold positioned. rewrite !elem_of_cons. auto 10.
Defined.

(** *** Walking the index *)

(** What a positioning method returns for the entry it found, if any. *)
Lemma resting_resting (cu : Cursor) (j k : nat) : resting (resting cu j) k = resting cu k.
Proof. done. Qed.

Lemma Cursor_First_resting (cu : Cursor) :
  Cursor_First cu
  = (match bbolt.items (bbolt.bucket (c cu)) !! 0%nat with
     | Some kv => decode kv
     | None => Ret None
     end, resting cu 0).
Proof.
  unfold Cursor_First, bbolt.First, bbolt.keyValue, resting. simpl.
  by destruct (bbolt.items (bbolt.bucket (c cu)) !! 0%nat).
Qed.

Lemma Cursor_Last_resting (cu : Cursor) :
  let l := bbolt.items (bbolt.bucket (c cu)) in
  Cursor_Last cu
  = (match l !! (length l - 1)%nat with
     | Some kv => decode kv
     | None => Ret None
     end, resting cu (length l - 1)).
Proof.
  unfold Cursor_Last, bbolt.Last, bbolt.keyValue, resting. simpl.
  by destruct (bbolt.items (bbolt.bucket (c cu)) !! _).
Qed.

Lemma Cursor_Next_resting (cu : Cursor) (k : nat) (kv : bytes * bytes) :
  bbolt.items (bbolt.bucket (c cu)) !! S k = Some kv →
  Cursor_Next (resting cu k) = (decode kv, resting cu (S k)).
Proof.
  intros Hkv. pose proof (lookup_lt_Some _ _ _ Hkv) as Hlt.
  unfold Cursor_Next, bbolt.Next, bbolt.keyValue, resting. simpl.
  rewrite decide_True by done. simpl. by rewrite Hkv.
Qed.

Lemma Cursor_Next_resting_last (cu : Cursor) (k : nat) :
  let l := bbolt.items (bbolt.bucket (c cu)) in
  (length l <= S k)%nat →
  Cursor_Next (resting cu k) = (Ret None, resting cu (length l - 1)).
Proof.
  intros l Hk. unfold Cursor_Next, bbolt.Next, bbolt.keyValue, resting. simpl.
  by rewrite decide_False by (fold l; lia).
Qed.

Lemma Cursor_Prev_resting (cu : Cursor) (k : nat) (kv : bytes * bytes) :
  bbolt.items (bbolt.bucket (c cu)) !! k = Some kv →
  Cursor_Prev (resting cu (S k)) = (decode kv, resting cu k).
Proof.
  intros Hkv. unfold Cursor_Prev, bbolt.Prev, bbolt.keyValue, resting. simpl.
  by rewrite Hkv.
Qed.

Lemma Cursor_Prev_resting_first (cu : Cursor) :
  Cursor_Prev (resting cu 0) = (Ret None, resting cu 0).
Proof. done. Qed.

Lemma walk_Next_resting (cu : Cursor) (m k : nat) :
  let l := bbolt.items (bbolt.bucket (c cu)) in
  (S k + m = length l)%nat →
  walk_Next (S m) (resting cu k) = map decode (drop (S k) l) ++ [Ret None].
Proof.
  intros l. revert k. induction m as [|m IH]; intros k Hk.
  - cbn [walk_Next]. rewrite Cursor_Next_resting_last by (fold l; lia).
    rewrite drop_ge by lia. done.
  - destruct (lookup_lt_is_Some_2 l (S k)) as [kv Hkv]; [lia|].
    change (walk_Next (S (S m)) (resting cu k))
      with (let '(r, cu') := Cursor_Next (resting cu k) in r :: walk_Next (S m) cu').
    rewrite (Cursor_Next_resting cu k kv Hkv).
    rewrite IH by lia. by rewrite (drop_S l kv (S k) Hkv).
Qed.

Lemma walk_Prev_resting (cu : Cursor) (k : nat) :
  let l := bbolt.items (bbolt.bucket (c cu)) in
  (k < length l)%nat →
  walk_Prev (S k) (resting cu k) = map decode (reverse (take k l)) ++ [Ret None].
Proof.
  intros l. induction k as [|k IH]; intros Hk.
  - done.
  - destruct (lookup_lt_is_Some_2 l k) as [kv Hkv]; [lia|].
    change (walk_Prev (S (S k)) (resting cu (S k)))
      with (let '(r, cu') := Cursor_Prev (resting cu (S k)) in r :: walk_Prev (S k) cu').
    rewrite (Cursor_Prev_resting cu k kv Hkv).
    rewrite IH by lia. rewrite (take_S_r l k kv Hkv), reverse_app. done.
Qed.

(** X3. [First] and then as many calls of [Next] as the bucket has entries
    return every entry once, decoded, in ascending order of the keys, and
    then the end sentinel. *)
Theorem forward_walk (cu : Cursor) :
  let l := bbolt.items (bbolt.bucket (c cu)) in
  forward (length l) cu = map decode l ++ [Ret None].
Proof.
  intros l. unfold forward. rewrite Cursor_First_resting. fold l.
  destruct l as [|kv l'] eqn:Hl; [done|].
  cbn [lookup list_lookup length map app].
  rewrite walk_Next_resting by (fold l; rewrite Hl; simpl; lia).
  fold l. rewrite Hl. done.
Qed.

(** X4. [Last] and then as many calls of [Prev] as the bucket has entries
    return every entry once, decoded, in descending order of the keys, and
    then the end sentinel. *)
Theorem backward_walk (cu : Cursor) :
  let l := bbolt.items (bbolt.bucket (c cu)) in
  backward (length l) cu = map decode (reverse l) ++ [Ret None].
Proof.
  intros l. unfold backward. rewrite Cursor_Last_resting. fold l.
  destruct (decide (l = [])) as [Hl|Hl]; [by rewrite Hl|].
  assert (0 < length l)%nat as Hlen by (destruct l; [done | simpl; lia]).
  destruct (lookup_lt_is_Some_2 l (length l - 1)) as [kv Hkv]; [lia|].
  rewrite Hkv.
  assert (l = take (length l - 1) l ++ [kv]) as Hsplit.
  { rewrite <- (take_drop (length l - 1) l) at 1.
    rewrite (drop_S l kv _ Hkv). rewrite (drop_ge l) by lia. done. }
  remember (length l - 1)%nat as m eqn:Hm.
  replace (length l) with (S m) by lia.
  rewrite walk_Prev_resting by (fold l; lia). fold l.
  rewrite Hsplit at 2. by rewrite reverse_app.
Qed.

(** The keys of the entries, as the cursor returns them, ascend strictly. *)
Lemma bbolt_items_sorted (bu : bbolt.Bucket) : StronglySorted item_lt (bbolt.items bu).
Proof. exact (sorted_items_strict (bbolt.kv bu)). Qed.

(** X5. After a pass of the end by [Next], the cursor rests on the last
    entry, so that [Prev] returns the entry before the last, or the end
    sentinel when there is none; and after a pass of the start by [Prev],
    [Next] returns the second entry. *)
Theorem turn_back_after_end (cu cu' : Cursor) :
  let l := bbolt.items (bbolt.bucket (c cu)) in
  (Cursor_Next cu = (Ret None, cu') →
     (Cursor_Prev cu').1
     = match (length l - 1)%nat with
       | O => Ret None
       | S k => match l !! k with Some kv => decode kv | None => Ret None end
       end) ∧
  (Cursor_Prev cu = (Ret None, cu') →
     (Cursor_Next cu').1
     = match l !! 1%nat with Some kv => decode kv | None => Ret None end).
Proof.
  intros l. split; intros H.
  - apply Cursor_Next_end in H as ->.
    change (on_last cu) with (resting cu (length l - 1)).
    destruct (length l - 1)%nat as [|k] eqn:Hlen; [done|].
    destruct (lookup_lt_is_Some_2 l k) as [kv Hkv]; [lia|].
    by rewrite (Cursor_Prev_resting cu k kv Hkv), Hkv.
  - apply Cursor_Prev_end in H as ->.
    change (on_first cu) with (resting cu 0).
    destruct (l !! 1%nat) as [kv|] eqn:Hkv.
    + by rewrite (Cursor_Next_resting cu 0 kv Hkv).
    + apply lookup_ge_None in Hkv. by rewrite Cursor_Next_resting_last.
Qed.

Lemma turn_back_after_end_witness :
  (Cursor_Prev (Cursor_Next at_last).2).1 = Ret (Some (B "alice", B "2")) ∧
  (Cursor_Next (Cursor_Prev at_first).2).1 = Ret (Some (B "alice", B "2")).
Proof.
  split.
  - rewrite (proj1 (turn_back_after_end at_last (Cursor_Next at_last).2)).
    + vm_compute. reflexivity.
    + vm_compute. reflexivity.
  - rewrite (proj2 (turn_back_after_end at_first (Cursor_Prev at_first).2)).
    + vm_compute. reflexivity.
    + vm_compute. reflexivity.
Defined.

(** *** Entries and their keys *)

Lemma composite_inj (value value' rowid rowid' : bytes) :
  sep ∉ rowid → sep ∉ rowid' →
  composite value rowid = composite value' rowid' →
  value = value' ∧ rowid = rowid'.
Proof.
  intros Hr Hr' Heq.
  pose proof (LastIndexByte_composite value rowid sep Hr) as H1.
  pose proof (LastIndexByte_composite value' rowid' sep Hr') as H2.
  unfold composite in Heq. rewrite Heq, H2 in H1.
  apply Nat2Z.inj in H1.
  apply app_inj_1 in Heq as [-> Heq]; [|done]. by simplify_eq.
Qed.

(** X6. Row ids without the separator keep the entries apart: after a
    successful [Set] of such a pair, the pairs of that kind in the index are
    the new one and those that were there. *)
Theorem Index_Set_entries (i i' : Index) (value rowid : bytes) :
  Index_Set i value rowid = (i', None) → sep ∉ rowid →
  ∀ v r, sep ∉ r →
    bbolt.kv (ib i') !! composite v r = Some r
    ↔ (v = value ∧ r = rowid) ∨ bbolt.kv (ib i) !! composite v r = Some r.
Proof.
  intros Hset Hrow v r Hr.
  apply Index_Set_written in Hset as [_ ->].
  fold (composite value rowid). rewrite lookup_insert_Some. split.
  - intros [[Heq _]|[_ H]]; [left | by right].
    apply composite_inj in Heq as [-> ->]; done.
  - intros [[-> ->]|H]; [by left|].
    destruct (decide (composite value rowid = composite v r)) as [Heq|Hne].
    + left. by apply composite_inj in Heq as [-> ->].
    + by right.
Qed.

Lemma Index_Set_entries_witness :
  bbolt.kv (ib three) !! composite (B "alice") (B "2") = Some (B "2").
Proof.
  apply (Index_Set_entries
           (Index_Set (Index_Set empty_rw (B "alice") (B "1")).1 (B "alice") (B "2")).1
           three (B "bob") (B "1")).
  - vm_compute. reflexivity.
  - vm_compute. intros H.
    by repeat (inversion H as [|? ? ? H']; clear H; rename H' into H).
  - vm_compute. intros H.
    by repeat (inversion H as [|? ? ? H']; clear H; rename H' into H).
  - right. vm_compute. reflexivity.
Defined.

Lemma seek_index_exact (l : list (bytes * bytes)) (k v : bytes) :
  StronglySorted item_lt l → (k, v) ∈ l → l !! bbolt.seek_index k l = Some (k, v).
Proof.
  induction 1 as [|p l Hs IH Hall]; intros Hin; [by apply elem_of_nil in Hin|].
  apply elem_of_cons in Hin as [<-|Hin]; simpl.
  - rewrite decide_True; [done|]. apply bytes_leb_refl.
  - rewrite Forall_forall in Hall. destruct (Hall _ Hin) as [Hle Hne]. simpl in *.
    rewrite decide_False; [by apply IH|].
    intros Hle'. apply Hne. by apply bytes_leb_antisym.
Qed.

(** X7. What [Set] has written is found: after a successful [Set] of a value
    and a row id without the separator, [Seek] of their composite key, on any
    cursor of the index, returns the value and the row id. *)
Theorem Index_Set_Seek (i i' : Index) (value rowid : bytes) (cu : Cursor) :
  Index_Set i value rowid = (i', None) → sep ∉ rowid →
  bbolt.bucket (c cu) = ib i' →
  (Cursor_Seek cu (composite value rowid)).1 = Ret (Some (value, rowid)).
Proof.
  intros Hset Hrow Hbu.
  apply Index_Set_written in Hset as [_ Hkv].
  assert ((composite value rowid, rowid) ∈ bbolt.items (ib i')) as Hin.
  { apply bbolt_items_elem. rewrite Hkv. apply lookup_insert_eq. }
  pose proof (seek_index_exact _ _ _ (bbolt_items_sorted (ib i')) Hin) as Hlook.
  unfold Cursor_Seek, bbolt.Seek, bbolt.keyValue. simpl.
  rewrite Hbu, Hlook. simpl. by apply decode_composite.
Qed.

Lemma Index_Set_Seek_witness :
  (Cursor_Seek (Index_Cursor three) (composite (B "bob") (B "1"))).1
  = Ret (Some (B "bob", B "1")).
Proof.
  apply (Index_Set_Seek
           (Index_Set (Index_Set empty_rw (B "alice") (B "1")).1 (B "alice") (B "2")).1
           three (B "bob") (B "1")).
  - vm_compute. reflexivity.
  - vm_compute. intros H.
    by repeat (inversion H as [|? ? ? H']; clear H; rename H' into H).
  - reflexivity.
Defined.

End bolt_more.

(** ** The record buffer *)
Module engine_buffer_facts.
Import engine_buffer engine_buffer_terms.

Section buffer.
Context {Record_ : Type}.

Abbreviation RecordBuffer := (@RecordBuffer Record_).

Lemma Nexts_from (rb : RecordBuffer) (k : nat) (j : Z) :
  -1 <= j → j + Z.of_nat k < Z.of_nat (length rb) →
  Nexts k (mkRecordBufferCursor j rb)
  = (replicate k true, mkRecordBufferCursor (j + Z.of_nat k) rb).
Proof.
  revert j. induction k as [|k IH]; intros j Hj Hk.
  - simpl. by rewrite Z.add_0_r.
  - cbn [Nexts]. unfold Next at 1. cbn [i buf].
    rewrite decide_False by lia. rewrite IH by lia.
    simpl. do 2 f_equal. lia.
Qed.

(** X8. On a buffer of [n] records the cursor's [Next] returns true [n]
    times and then false, for good, the cursor staying where it is. After
    the [k]-th [Next], [Record] is the [k]-th record added; before the first
    one it panics. *)
Theorem recordBufferCursor_walk (rb : RecordBuffer) (k : nat) :
  (k <= length rb)%nat →
  let '(oks, c) := Nexts k (Cursor rb) in
  oks = replicate k true ∧
  Record c = match k with
             | O => Panic
             | S j => match rb !! j with Some r => Ret r | None => Panic end
             end ∧
  (k = length rb → Next c = (false, c)).
Proof.
  intros Hk. unfold Cursor. rewrite Nexts_from by lia.
  split_and!; [done| |].
  - unfold Record. cbn [i buf]. destruct k as [|j]; [done|].
    rewrite decide_True by lia. replace (Z.to_nat (-1 + Z.of_nat (S j))) with j by lia.
    done.
  - intros ->. unfold Next. cbn [i buf]. by rewrite decide_True by lia.
Qed.

(** X9. A record added to a buffer is the last one its cursor reaches. *)
Theorem Add_last (rb : RecordBuffer) (r : Record_) :
  let '(oks, c) := Nexts (S (length rb)) (Cursor (Add rb r)) in
  oks = replicate (S (length rb)) true ∧ Record c = Ret r ∧ Next c = (false, c).
Proof.
  unfold Cursor, Add.
  rewrite Nexts_from by (rewrite ?length_app; simpl; lia).
  split_and!; [done| |].
  - unfold Record. cbn [i buf]. rewrite decide_True by lia.
    replace (Z.to_nat (-1 + Z.of_nat (S (length rb)))) with (length rb) by lia.
    by rewrite list_lookup_middle.
  - unfold Next. cbn [i buf].
    by rewrite decide_True by (rewrite length_app; simpl; lia).
Qed.

End buffer.

Lemma recordBufferCursor_walk_witness :
  Record (Nexts 2 (Cursor ["r1"; "r2"; "r3"]%string)).2 = Ret "r2"%string.
Proof.
  pose proof (recordBufferCursor_walk ["r1"; "r2"; "r3"]%string 2) as H.
  destruct (Nexts 2 (Cursor ["r1"; "r2"; "r3"]%string)) as [oks c].
  destruct H as (_ & H & _); [simpl; lia|]. exact H.
Defined.

End engine_buffer_facts.

(** ** More on the catalog *)
Module database_more.
Import document engine database database_terms database_facts database_more_terms.

(** *** Store ids *)

Lemma byte_of_Z_value (x : Z) : Z.of_N (N_of_ascii (byte_of_Z x)) = x mod 256.
Proof.
  unfold byte_of_Z. rewrite N_ascii_embedding.
  - rewrite Z2N.id; [done|]. apply Z.mod_pos_bound. lia.
  - pose proof (Z.mod_pos_bound x 256 ltac:(lia)). lia.
Qed.

Lemma uint32_bytes (v : Z) :
  0 <= v < 2 ^ 32 →
  Z.lor (Z.lor (Z.lor (v mod 256) (Z.shiftl (Z.shiftr v 8 mod 256) 8))
               (Z.shiftl (Z.shiftr v 16 mod 256) 16))
        (Z.shiftl (Z.shiftr v 24 mod 256) 24) = v.
Proof.
  intros Hv. apply Z.bits_inj'. intros n Hn.
  change 256 with (2 ^ 8).
  rewrite !Z.lor_spec, !Z.shiftl_spec by lia.
  destruct (Z.ltb_spec n 8).
  { rewrite Z.mod_pow2_bits_low by lia.
    rewrite !(Z.testbit_neg_r _ (n - _)) by lia. by rewrite !orb_false_r. }
  rewrite (Z.mod_pow2_bits_high v) by lia. rewrite orb_false_l.
  destruct (Z.ltb_spec n 16).
  { rewrite Z.mod_pow2_bits_low, Z.shiftr_spec by lia.
    rewrite !(Z.testbit_neg_r _ (n - _)) by lia.
    rewrite !orb_false_r. f_equal. lia. }
  rewrite (Z.mod_pow2_bits_high _ 8 (n - 8)) by lia. rewrite orb_false_l.
  destruct (Z.ltb_spec n 24).
  { rewrite Z.mod_pow2_bits_low, Z.shiftr_spec by lia.
    rewrite !(Z.testbit_neg_r _ (n - _)) by lia.
    rewrite !orb_false_r. f_equal. lia. }
  rewrite (Z.mod_pow2_bits_high _ 8 (n - 16)) by lia. rewrite orb_false_l.
  destruct (Z.ltb_spec n 32).
  { rewrite Z.mod_pow2_bits_low, Z.shiftr_spec by lia. f_equal. lia. }
  rewrite (Z.mod_pow2_bits_high _ 8 (n - 24)) by lia.
  symmetry. apply (Z.bits_above_log2 v n); [lia|].
  destruct (decide (v = 0)) as [->|]; [simpl; lia|].
  assert (Z.log2 v < 32) by (apply Z.log2_lt_pow2; lia). lia.
Qed.

Lemma generateStoreID_bytes (env : entropy) :
  let v := uint32 (unix_now env) in
  generateStoreID env
  = [byte_of_Z (Z.shiftr v 24); byte_of_Z (Z.shiftr v 16); byte_of_Z (Z.shiftr v 8);
     byte_of_Z v; (rand_bytes env).1; (rand_bytes env).2].
Proof. reflexivity. Qed.

(** X10. A store id has six bytes: the Unix time of its making, reduced to
    32 bits, in big-endian order, and then the two random bytes. So two
    readings give the same id only when they agree on all of these. *)
Theorem generateStoreID_layout (env env' : entropy) :
  length (generateStoreID env) = 6%nat ∧
  BigEndian_Uint32 (generateStoreID env) = uint32 (unix_now env) ∧
  drop 4 (generateStoreID env) = [(rand_bytes env).1; (rand_bytes env).2] ∧
  (generateStoreID env = generateStoreID env' →
     uint32 (unix_now env) = uint32 (unix_now env') ∧ rand_bytes env = rand_bytes env').
Proof.
  assert (Hdec : ∀ e, BigEndian_Uint32 (generateStoreID e) = uint32 (unix_now e)).
  { intros e. rewrite generateStoreID_bytes.
    unfold BigEndian_Uint32, byte_value. cbn [lookup list_lookup].
    rewrite !byte_of_Z_value. apply uint32_bytes.
    unfold uint32. apply Z.mod_pos_bound. lia. }
  split_and!; [apply length_generateStoreID | apply Hdec | |].
  - by rewrite generateStoreID_bytes.
  - intros Heq. split.
    + by rewrite <- !Hdec, Heq.
    + rewrite !generateStoreID_bytes in Heq. cbv zeta in Heq.
      injection Heq as _ _ _ _ H1 H2.
      destruct (rand_bytes env), (rand_bytes env'). simpl in *. by subst.
Qed.

Section config.
Context {ValueType : Type} `{!ValueTypeOps ValueType}.
Context {V : Type} `{!Codec V}.

Abbreviation TableConfig := (@TableConfig ValueType).
Abbreviation tableInfo := (@tableInfo ValueType).
Abbreviation tableInfoStore := (@tableInfoStore V).

(** *** The document of a table info *)

(** X11. Scanning the document of a table info gives the table info back:
    the six bytes of its store id and its configuration. *)
Theorem tableInfo_ScanDocument_ToDocument `{!ValueTypeLaws ValueType} (ti0 ti : tableInfo) :
  length (storeID ti0) = 6%nat → length (storeID ti) = 6%nat →
  tableInfo_ScanDocument ti0 (tableInfo_ToDocument ti) = (ti, None).
Proof.
  intros H0 H. unfold tableInfo_ScanDocument, tableInfo_ToDocument.
  cbn [NewFieldBuffer Add app GetByField].
  rewrite decide_True by done.
  rewrite decide_False by done. rewrite decide_True by done.
  cbn [NewBlobValue ConvertToBlob NewDocumentValue ConvertToDocument storeID cfg].
  rewrite TableConfig_scan_to, map_reread_id.
  rewrite copy_same_length by congruence. by destruct ti as [id [fcs]].
Qed.

(** *** Insert, Get, Replace and Delete together *)

Lemma tableInfoStore_eta (t : tableInfoStore) : mktableInfoStore (st t) = t.
Proof. by destruct t. Qed.

Lemma Store_eta (s : Store V) : mkStore (data s) (writable s) = s.
Proof. by destruct s. Qed.

(** X12. [Get] of a name just inserted returns the table info [Insert]
    returned, and [Get] of any other name returns what it did before. *)
Theorem Insert_Get `{!CodecLaws V} `{!ValueTypeLaws ValueType}
    (t t1 : tableInfoStore) (name : string) (c : TableConfig)
    (envs : list entropy) (ti : tableInfo) :
  Insert t name c envs = Some (t1, Ok ti) →
  tableInfoStore_Get t1 name = Ok ti ∧
  cfg ti = c ∧
  ∀ other, other ≠ name → tableInfoStore_Get t1 other = tableInfoStore_Get t other.
Proof.
  intros Hins.
  apply Insert_inv in Hins as (_ & Hcfg & (env & _ & Hid & _) & v & Henc & Hst).
  split_and!; [|done|].
  - assert (data (st t1) !! key_of name = Some v) as Hv
      by (rewrite Hst; apply lookup_insert_eq).
    assert (length (storeID ti) = 6%nat) as Hlen
      by (rewrite Hid; apply length_generateStoreID).
    rewrite (Get_stored t1 name ti v Hv Henc Hlen).
    rewrite map_reread_id. by destruct ti as [id [fcs]].
  - intros other Hne. unfold tableInfoStore_Get, Get. rewrite Hst. simpl.
    rewrite lookup_insert_ne; [done|]. intros Heq. by apply key_of_inj in Heq.
Qed.

(** The names [ListTables] returns are those of the keys of the store. *)
Lemma ListTables_names (t : tableInfoStore) (name : string) :
  name ∈ (ListTables t).1 ↔ is_Some (data (st t) !! key_of name).
Proof.
  unfold ListTables. rewrite ListTables_loop_map. simpl.
  rewrite list_elem_of_fmap. split.
  - intros ([k v] & -> & Hin). apply sorted_items_elem in Hin.
    unfold key_of. simpl. rewrite list_ascii_of_string_of_list_ascii. eauto.
  - intros [v Hv]. exists (key_of name, v). split.
    + unfold key_of. simpl. by rewrite string_of_list_ascii_of_string.
    + by apply sorted_items_elem.
Qed.

(** X13. [Insert] adds one name to the tables listed: after it has
    succeeded [ListTables] returns the new name, which it did not return
    before, and the names it returned before. *)
Theorem Insert_ListTables (t t1 : tableInfoStore) (name : string) (c : TableConfig)
    (envs : list entropy) (ti : tableInfo) :
  Insert t name c envs = Some (t1, Ok ti) →
  (name ∉ (ListTables t).1) ∧
  ∀ n, n ∈ (ListTables t1).1 ↔ n = name ∨ n ∈ (ListTables t).1.
Proof.
  intros Hins. apply Insert_inv in Hins as (Hfree & _ & _ & v & _ & Hst).
  split.
  - rewrite ListTables_names, Hfree. by intros [? ?].
  - intros n. rewrite !ListTables_names, Hst. simpl.
    destruct (decide (n = name)) as [->|Hne].
    + rewrite lookup_insert_eq. split; eauto.
    + rewrite lookup_insert_ne by (intros Heq; by apply key_of_inj in Heq).
      split; [auto | by intros [?|?]].
Qed.

(** X14. An [Insert], a [Replace] or a [Delete] that returns an error
    leaves the store as it was. *)
Theorem failed_write_unchanged (t t' : tableInfoStore) (name : string) (c : TableConfig)
    (envs : list entropy) (e : error) :
  (Insert t name c envs = Some (t', Err e) → t' = t) ∧
  (Replace t name c = (t', Some e) → t' = t) ∧
  (tableInfoStore_Delete t name = (t', Some e) → t' = t).
Proof.
  split_and!.
  - unfold Insert, Put. intros H.
    repeat case_match; simplify_eq; try done; by rewrite tableInfoStore_eta.
  - unfold Replace, Put. intros H.
    repeat case_match; simplify_eq; try done; by rewrite tableInfoStore_eta.
  - unfold tableInfoStore_Delete, Delete. intros H.
    repeat case_match; simplify_eq; try done; by rewrite tableInfoStore_eta.
Qed.

(** X15. A name that has no entry: [Get] and [Replace] return
    [ErrTableNotFound], and so does [Delete] in a writable transaction; the
    store is as it was. *)
Theorem missing_table (t : tableInfoStore) (name : string) (c : TableConfig) :
  data (st t) !! key_of name = None →
  tableInfoStore_Get t name = Err ErrTableNotFound ∧
  Replace t name c = (t, Some ErrTableNotFound) ∧
  (writable (st t) = true → tableInfoStore_Delete t name = (t, Some ErrTableNotFound)).
Proof.
  intros Hnone. unfold Replace, tableInfoStore_Delete, tableInfoStore_Get, Get, Delete.
  rewrite Hnone. split_and!; [done..|].
  intros ->. by rewrite tableInfoStore_eta.
Qed.

(** X16. After a successful [Delete] of a table, [Get] of its name returns
    [ErrTableNotFound], [ListTables] returns the other names it returned
    before, and [Get] of another name returns what it did before. *)
Theorem Delete_removes (t t' : tableInfoStore) (name : string) :
  tableInfoStore_Delete t name = (t', None) →
  tableInfoStore_Get t' name = Err ErrTableNotFound ∧
  (∀ n, n ∈ (ListTables t').1 ↔ n ≠ name ∧ n ∈ (ListTables t).1) ∧
  (∀ other, other ≠ name → tableInfoStore_Get t' other = tableInfoStore_Get t other).
Proof.
  unfold tableInfoStore_Delete, Delete. intros H.
  destruct (writable (st t)); [|by simplify_eq].
  destruct (data (st t) !! key_of name) as [v|] eqn:Hv; [|by simplify_eq].
  simplify_eq. split_and!.
  - unfold tableInfoStore_Get, Get. simpl. by rewrite lookup_delete_eq.
  - intros n. rewrite !ListTables_names. simpl.
    destruct (decide (n = name)) as [->|Hne].
    + rewrite lookup_delete_eq. split; [by intros [? ?] | by intros [? _]].
    + rewrite lookup_delete_ne by (intros Heq; by apply key_of_inj in Heq).
      split; [auto | by intros [_ ?]].
  - intros other Hne. unfold tableInfoStore_Get, Get. simpl.
    rewrite lookup_delete_ne; [done|]. intros Heq. by apply key_of_inj in Heq.
Qed.

(** *** The primary key *)

Lemma find_first {A : Type} (p : A → bool) (l : list A) :
  match List.find p l with
  | Some x => ∃ j, l !! j = Some x ∧ p x = true ∧
                   ∀ j' y, (j' < j)%nat → l !! j' = Some y → p y = false
  | None => ∀ y, y ∈ l → p y = false
  end.
Proof.
  induction l as [|a l IH]; simpl.
  - intros y Hy. by apply elem_of_nil in Hy.
  - destruct (p a) eqn:Hpa.
    + exists 0%nat. split_and!; [done..|]. intros j' y Hj'. lia.
    + destruct (List.find p l) as [x|].
      * destruct IH as (j & Hj & Hx & Hbefore). exists (S j). split_and!; [done..|].
        intros [|j'] y Hlt Hy; simpl in Hy; [by simplify_eq|].
        apply (Hbefore j'); [lia | done].
      * intros y [->|Hy]%elem_of_cons; [done | by apply IH].
Qed.

(** X17. [GetPrimaryKey] returns the first constraint of the configuration
    that is a primary key, and nothing when no constraint is one. So when
    one constraint only is a primary key, it returns that one. *)
Theorem GetPrimaryKey_first (t : TableConfig) :
  match GetPrimaryKey t with
  | Some f => ∃ j, FieldConstraints t !! j = Some f ∧ IsPrimaryKey f = true ∧
                   ∀ j' f', (j' < j)%nat → FieldConstraints t !! j' = Some f' →
                            IsPrimaryKey f' = false
  | None => ∀ f, f ∈ FieldConstraints t → IsPrimaryKey f = false
  end ∧
  ∀ f, f ∈ FieldConstraints t → IsPrimaryKey f = true →
       (∀ f', f' ∈ FieldConstraints t → IsPrimaryKey f' = true → f' = f) →
       GetPrimaryKey t = Some f.
Proof.
  unfold GetPrimaryKey. pose proof (find_first IsPrimaryKey (FieldConstraints t)) as H.
  split; [exact H|].
  intros f Hin Hpk Honly.
  destruct (List.find IsPrimaryKey (FieldConstraints t)) as [g|].
  - destruct H as (j & Hj & Hg & _). f_equal. apply Honly; [|done].
    by eapply list_elem_of_lookup_2.
  - rewrite (H f Hin) in Hpk. done.
Qed.

End config.

Import models.

Lemma generateStoreID_layout_witness :
  uint32 (unix_now env0) = uint32 (unix_now env0) ∧ rand_bytes env0 = rand_bytes env0.
Proof.
  apply (proj2 (proj2 (proj2 (generateStoreID_layout env0 env0)))). reflexivity.
Defined.

Lemma tableInfo_ScanDocument_ToDocument_witness :
  tableInfo_ScanDocument (mktableInfo zero_storeID (mkTableConfig []))
    (tableInfo_ToDocument (mktableInfo (generateStoreID env0) cfg0))
  = (mktableInfo (generateStoreID env0) cfg0, None).
Proof.
  apply (tableInfo_ScanDocument_ToDocument (ValueType := ascii)); reflexivity.
Defined.

Lemma Insert_Get_witness :
  tableInfoStore_Get store1 "users" = Ok (mktableInfo (generateStoreID env0) cfg0).
Proof.
  apply (Insert_Get store0 store1 "users" cfg0 [env0]). vm_compute. reflexivity.
Defined.

Lemma Insert_ListTables_witness :
  "users"%string ∈ (ListTables store1).1.
Proof.
  destruct (Insert_ListTables store0 store1 "users" cfg0 [env0]
              (mktableInfo (generateStoreID env0) cfg0)) as [_ H].
  - vm_compute. reflexivity.
  - apply H. by left.
Defined.

Lemma failed_write_unchanged_witness :
  (Replace store0 "users" cfg0).1 = store0 ∧
  (tableInfoStore_Delete store0 "users").1 = store0.
Proof.
  split.
  - apply (proj1 (proj2 (failed_write_unchanged store0 (Replace store0 "users" cfg0).1
                           "users" cfg0 [] ErrTableNotFound))).
    vm_compute. reflexivity.
  - apply (proj2 (proj2 (failed_write_unchanged store0
                           (tableInfoStore_Delete store0 "users").1
                           "users" cfg0 [] ErrTableNotFound))).
    vm_compute. reflexivity.
Defined.

Lemma missing_table_witness :
  tableInfoStore_Get store0 "users" = Err (A := tableInfo (ValueType := ascii)) ErrTableNotFound.
Proof.
  apply (missing_table store0 "users" cfg0). vm_compute. reflexivity.
Defined.

Lemma Delete_removes_witness :
  tableInfoStore_Get (tableInfoStore_Delete store1 "users").1 "users"
  = Err (A := tableInfo (ValueType := ascii)) ErrTableNotFound.
Proof.
  apply (Delete_removes store1 (tableInfoStore_Delete store1 "users").1 "users").
  vm_compute. reflexivity.
Defined.

Lemma GetPrimaryKey_first_witness :
  GetPrimaryKey cfg0 = Some (mkFieldConstraint ["id"%string] (ascii_of_N 3) true true).
Proof.
  apply (proj2 (GetPrimaryKey_first cfg0)).
  - by left.
  - reflexivity.
  - intros f' Hin. unfold cfg0 in Hin. simpl in Hin.
    apply elem_of_cons in Hin as [->|Hin]; [done|].
    apply list_elem_of_singleton in Hin as ->. done.
Defined.

End database_more.

(** ** The index store *)
Module index_store_facts.
Import document engine database database_index database_terms database_facts
  database_more_terms.

Lemma IndexConfig_ScanDocument_ToDocument_eq (i0 i : IndexConfig) :
  IndexConfig_ScanDocument i0 (IndexConfig_ToDocument i) = (i, None).
Proof.
  unfold IndexConfig_ScanDocument, IndexConfig_ToDocument.
  cbn [NewFieldBuffer Add app GetByField].
  rewrite decide_True by done. cbn [NewBoolValue ConvertToBool].
  repeat (rewrite decide_False by done). rewrite decide_True by done.
  cbn [NewTextValue ConvertToText].
  repeat (rewrite decide_False by done). rewrite decide_True by done.
  cbn [ConvertToText].
  repeat (rewrite decide_False by done). rewrite decide_True by done.
  rewrite arrayToValuePath_valuePathToArray. by destruct i.
Qed.

(** X18. Scanning the document of an index configuration into any
    configuration succeeds and gives the configuration back: its unique
    flag, its two names and its path. *)
Theorem IndexConfig_ScanDocument_ToDocument (i0 i : IndexConfig) :
  let '(i', err) := IndexConfig_ScanDocument i0 (IndexConfig_ToDocument i) in
  err = None ∧ Unique i' = Unique i ∧ IndexName i' = IndexName i ∧
  TableName i' = TableName i ∧ Path i' = Path i.
Proof. by rewrite IndexConfig_ScanDocument_ToDocument_eq. Qed.

Section store.
Context {V : Type} `{!Codec V}.

Abbreviation indexStore := (@indexStore V).

Lemma indexStore_eta (t : indexStore) : mkindexStore (ist t) = t.
Proof. by destruct t. Qed.

Lemma IndexConfig_scan_encoded `{!CodecLaws V} (i0 cfg : IndexConfig) (v : V) :
  EncodeDocument (IndexConfig_ToDocument cfg) = Ok v →
  IndexConfig_ScanDocument i0 (EncodedDocument v) = (cfg, None).
Proof.
  intros Henc. rewrite <- (IndexConfig_ScanDocument_ToDocument_eq i0 cfg).
  unfold IndexConfig_ScanDocument.
  by rewrite !(EncodedDocument_fields _ _ _ Henc).
Qed.

Lemma indexStore_Get_stored `{!CodecLaws V} (t : indexStore) (cfg : IndexConfig) (v : V) :
  data (ist t) !! key_of (IndexName cfg) = Some v →
  EncodeDocument (IndexConfig_ToDocument cfg) = Ok v →
  indexStore_Get t (IndexName cfg) = inl cfg.
Proof.
  intros Hv Henc. unfold indexStore_Get, Get. rewrite Hv.
  by rewrite (IndexConfig_scan_encoded _ cfg v Henc).
Qed.

Lemma indexStore_Insert_inv (t t' : indexStore) (cfg : IndexConfig) :
  indexStore_Insert t cfg = (t', None) →
  data (ist t) !! key_of (IndexName cfg) = None ∧
  ∃ v, EncodeDocument (IndexConfig_ToDocument cfg) = Ok v ∧
       ist t' = mkStore (<[key_of (IndexName cfg) := v]> (data (ist t))) (writable (ist t)).
Proof.
  unfold indexStore_Insert, Get, Put. intros H.
  destruct (data (ist t) !! key_of (IndexName cfg)) eqn:Hkey; [by simplify_eq|].
  destruct (EncodeDocument _) as [v|] eqn:Henc; [|by simplify_eq].
  destruct (writable (ist t)); simplify_eq. eauto.
Qed.

(** X19. [Insert] of a configuration whose name has an entry returns
    [ErrIndexAlreadyExists] and the store as it was. After an [Insert] has
    succeeded, [Get] of the name returns the configuration inserted, [Get]
    of another name returns what it did before, and a second [Insert] under
    the name fails in that way. *)
Theorem indexStore_Insert_Get `{!CodecLaws V} (t : indexStore) (cfg : IndexConfig) :
  (is_Some (data (ist t) !! key_of (IndexName cfg)) →
     indexStore_Insert t cfg = (t, Some ErrIndexAlreadyExists)) ∧
  (∀ t', indexStore_Insert t cfg = (t', None) →
     indexStore_Get t' (IndexName cfg) = inl cfg ∧
     (∀ other, other ≠ IndexName cfg → indexStore_Get t' other = indexStore_Get t other) ∧
     (∀ cfg', IndexName cfg' = IndexName cfg →
        indexStore_Insert t' cfg' = (t', Some ErrIndexAlreadyExists))).
Proof.
  split.
  - intros [v Hv]. unfold indexStore_Insert, Get. by rewrite Hv.
  - intros t' Hins. apply indexStore_Insert_inv in Hins as (_ & v & Henc & Hst).
    assert (data (ist t') !! key_of (IndexName cfg) = Some v) as Hv
      by (rewrite Hst; apply lookup_insert_eq).
    split_and!.
    + by apply (indexStore_Get_stored t' cfg v).
    + intros other Hne. unfold indexStore_Get, Get. rewrite Hst. simpl.
      rewrite lookup_insert_ne; [done|]. intros Heq. by apply key_of_inj in Heq.
    + intros cfg' Hname. unfold indexStore_Insert, Get. by rewrite Hname, Hv.
Qed.

(** X20. [Delete] of a name that has no entry returns [ErrIndexNotFound], in
    a writable transaction, and [Get] of it does; a [Delete] that returns an
    error leaves the store as it was. After a [Delete] has succeeded, [Get]
    of the name returns [ErrIndexNotFound] and [Get] of another name returns
    what it did before. *)
Theorem indexStore_Delete_Get (t : indexStore) (name : string) :
  (data (ist t) !! key_of name = None →
     indexStore_Get t name = inr ErrIndexNotFound ∧
     (writable (ist t) = true → indexStore_Delete t name = (t, Some ErrIndexNotFound))) ∧
  (∀ t' e, indexStore_Delete t name = (t', Some e) → t' = t) ∧
  (∀ t', indexStore_Delete t name = (t', None) →
     indexStore_Get t' name = inr ErrIndexNotFound ∧
     ∀ other, other ≠ name → indexStore_Get t' other = indexStore_Get t other).
Proof.
  split_and!.
  - intros Hnone. unfold indexStore_Get, indexStore_Delete, Get, Delete.
    rewrite Hnone. split; [done|]. intros ->. by rewrite indexStore_eta.
  - intros t' e. unfold indexStore_Delete, Delete. intros H.
    repeat case_match; simplify_eq; try done; by rewrite indexStore_eta.
  - intros t'. unfold indexStore_Delete, Delete. intros H.
    destruct (writable (ist t)); [|by simplify_eq].
    destruct (data (ist t) !! key_of name) as [v|] eqn:Hv; [|by simplify_eq].
    simplify_eq. split.
    + unfold indexStore_Get, Get. simpl. by rewrite lookup_delete_eq.
    + intros other Hne. unfold indexStore_Get, Get. simpl.
      rewrite lookup_delete_ne; [done|]. intros Heq. by apply key_of_inj in Heq.
Qed.

(** *** ListAll *)

Lemma ListAll_loop_holds `{!CodecLaws V} (src pend : list (bytes * V))
    (cfgs acc : list IndexConfig) :
  Forall2 holds pend cfgs →
  ListAll_loop (length pend) (mkIterator src pend) acc = inl (acc ++ cfgs).
Proof.
  intros H. revert acc. induction H as [|item cfg pend cfgs [Henc _] _ IH]; intros acc.
  - simpl. by rewrite app_nil_r.
  - cbn [length ListAll_loop Valid Item pending head].
    rewrite (IndexConfig_scan_encoded _ cfg _ Henc).
    unfold Next. cbn [source pending tail]. rewrite IH. by rewrite <- app_assoc.
Qed.

Lemma holds_all (items : list (bytes * V)) :
  Forall (λ item, ∃ cfg, holds item cfg) items → ∃ cfgs, Forall2 holds items cfgs.
Proof.
  induction 1 as [|item items [cfg Hcfg] _ [cfgs IH]].
  - by exists [].
  - exists (cfg :: cfgs). by constructor.
Qed.

Lemma holds_sorted (items : list (bytes * V)) (cfgs : list IndexConfig) :
  Forall2 holds items cfgs → StronglySorted item_lt items →
  StronglySorted index_name_lt (map IndexName cfgs).
Proof.
  induction 1 as [|item cfg items cfgs [_ Hkey] Hrest IH]; intros Hs; [constructor|].
  apply StronglySorted_inv in Hs as [Hs Hall]. simpl. constructor; [by apply IH|].
  apply Forall_forall. intros name Hin.
  apply list_elem_of_fmap in Hin as (cfg' & -> & Hin).
  apply list_elem_of_lookup_1 in Hin as [j Hj].
  destruct (Forall2_lookup_r _ _ _ _ _ Hrest Hj) as (item' & Hitem' & _ & Hkey').
  rewrite Forall_forall in Hall.
  specialize (Hall item' (list_elem_of_lookup_2 _ _ _ Hitem')).
  unfold index_name_lt. by rewrite <- Hkey, <- Hkey'.
Qed.

(** X21. The index store keeps every entry an encoded configuration under
    the name of the configuration: so is the empty store, and so [Insert]
    and [Delete] leave it. On such a store [ListAll] returns no error and
    the configurations, in the lexicographic byte order of their names, that
    [Get] returns for their names. *)
Theorem ListAll_configurations `{!CodecLaws V} :
  (∀ w, well_stored (mkindexStore (mkStore (∅ : gmap bytes V) w))) ∧
  (∀ (t : indexStore) cfg, well_stored t → well_stored (indexStore_Insert t cfg).1) ∧
  (∀ (t : indexStore) name, well_stored t → well_stored (indexStore_Delete t name).1) ∧
  (∀ t : indexStore, well_stored t →
     ∃ l, ListAll t = inl l ∧
          StronglySorted index_name_lt (map IndexName l) ∧
          ∀ cfg, cfg ∈ l ↔ indexStore_Get t (IndexName cfg) = inl cfg).
Proof.
  split_and!.
  - intros w k v. simpl. by rewrite lookup_empty.
  - intros t cfg Ht.
    destruct (indexStore_Insert t cfg) as [t' [e|]] eqn:Hins.
    + simpl. unfold indexStore_Insert, Get, Put in Hins.
      repeat case_match; simplify_eq; try done; by rewrite indexStore_eta.
    + apply indexStore_Insert_inv in Hins as (_ & v & Henc & Hst). simpl.
      intros k v'. rewrite Hst. simpl.
      intros [[<- <-]|[_ Hk]]%lookup_insert_Some; [eauto | by eapply Ht].
  - intros t name Ht. unfold indexStore_Delete, Delete.
    destruct (writable (ist t)); [|by rewrite indexStore_eta].
    destruct (data (ist t) !! key_of name) eqn:Hv; [|by rewrite indexStore_eta].
    simpl. intros k v'. simpl. rewrite lookup_delete_Some. intros [_ Hk]. by eapply Ht.
  - intros t Ht.
    set (items := merge_sort item_le (map_to_list (data (ist t)))).
    assert (Forall (λ item, ∃ cfg, holds item cfg) items) as Hall.
    { apply Forall_forall. intros [k v] Hin. apply sorted_items_elem in Hin.
      destruct (Ht k v Hin) as (cfg & Henc & Hk). by exists cfg. }
    destruct (holds_all items Hall) as [l Hl].
    exists l. split_and!.
    + unfold ListAll, NewIterator, Seek_nil. cbn [Reverse source pending]. fold items.
      by rewrite (ListAll_loop_holds items items l [] Hl).
    + apply (holds_sorted items l Hl). apply sorted_items_strict.
    + intros cfg. split.
      * intros Hin. apply list_elem_of_lookup_1 in Hin as [j Hj].
        destruct (Forall2_lookup_r _ _ _ _ _ Hl Hj) as ([k v] & Hitem & Henc & Hk).
        simpl in *. apply list_elem_of_lookup_2, sorted_items_elem in Hitem.
        apply (indexStore_Get_stored t cfg v); [by rewrite <- Hk | done].
      * intros Hget. unfold indexStore_Get, Get in Hget.
        destruct (data (ist t) !! key_of (IndexName cfg)) as [v|] eqn:Hv;
          [|by simplify_eq].
        assert ((key_of (IndexName cfg), v) ∈ items) as Hin by by apply sorted_items_elem.
        apply list_elem_of_lookup_1 in Hin as [j Hj].
        destruct (Forall2_lookup_l _ _ _ _ _ Hl Hj) as (cfg' & Hcfg' & Henc & _).
        simpl in Henc. rewrite (IndexConfig_scan_encoded _ cfg' v Henc) in Hget.
        simplify_eq. by eapply list_elem_of_lookup_2.
Qed.

End store.

Import models.

Lemma indexStore_Insert_Get_witness :
  indexStore_Get index_store2 "idx_users_age" = inl idx_age.
Proof.
  apply (proj2 (indexStore_Insert_Get (indexStore_Insert index_store0 idx_city).1 idx_age)
           index_store2).
  vm_compute. reflexivity.
Defined.

Lemma indexStore_Delete_Get_witness :
  indexStore_Get (indexStore_Delete index_store2 "idx_users_age").1 "idx_users_age"
  = inr ErrIndexNotFound.
Proof.
  apply (proj2 (proj2 (indexStore_Delete_Get index_store2 "idx_users_age"))
           (indexStore_Delete index_store2 "idx_users_age").1).
  vm_compute. reflexivity.
Defined.

Lemma ListAll_configurations_witness :
  ∃ l, ListAll index_store2 = inl l ∧
       StronglySorted index_name_lt (map IndexName l) ∧
       ∀ cfg, cfg ∈ l ↔ indexStore_Get index_store2 (IndexName cfg) = inl cfg.
Proof.
  apply (proj2 (proj2 (proj2 ListAll_configurations))).
  unfold index_store2.
  repeat apply (proj1 (proj2 ListAll_configurations)).
  apply (proj1 ListAll_configurations).
Defined.

(** [ListAll] on the two indexes of [index_store2]. *)
Example ListAll_two : ListAll index_store2 = inl [idx_age; idx_city].
Proof. vm_compute. reflexivity. Qed.

End index_store_facts.
